(** * AlphaPig: the AlphaZero training pipeline of [train_mxnet.py]

    A shallow embedding of [TrainPipeline] (symmetry augmentation, the
    bounded replay buffer, the KL-driven policy update, the evaluation
    against pure MCTS and the main loop) together with the properties
    stated about it.

    Conventions.
    - Python floats are idealised as exact rationals ([Q]); every
      comparison of the source is kept as the comparison it is.
    - A 2-D numpy array is the list of its rows; a state tensor is the
      list of its channels.
    - Python exceptions are values of [exn]; a method of the pipeline is a
      function from the object's state to a result and the state it
      leaves behind (an exception does not undo earlier assignments).
    - The game, the tree search, the network, [random.sample] and
      [np.log] are collaborators that live outside the file: they are
      the fields of the class [Collaborators]. *)

From Stdlib Require Import QArith Lqa.
From stdpp Require Import prelude strings list list_monad gmap.

Local Open Scope nat_scope.

(** ** numpy: the array operations the pipeline uses *)

Module Numpy.

Abbreviation matrix A := (list (list A)).

Section Arrays.
Context {A : Type}.

(** [np.flipud(m)]: reverse the order of the rows. *)
Definition flipud (m : matrix A) : matrix A := reverse m.

(** [np.fliplr(m)]: reverse every row. *)
Definition fliplr (m : matrix A) : matrix A := reverse <$> m.

Definition ncols (m : matrix A) : nat :=
  match m with [] => 0 | r :: _ => length r end.

(** [np.transpose(m)] of a 2-D array: column [j] becomes row [j]. *)
Definition transpose_w (w : nat) (m : matrix A) : matrix A :=
  foldr (zip_with cons) (replicate w []) m.
Definition transpose (m : matrix A) : matrix A := transpose_w (ncols m) m.

(** [np.rot90(m, k)], as numpy defines it: [k] is reduced modulo 4,
    [k = 1] is [transpose(flip(m, 1))], [k = 2] is [flip(flip(m, 0), 1)]
    and [k = 3] is [flip(transpose(m), 1)]. *)
Definition rot90 (m : matrix A) (k : nat) : matrix A :=
  match k mod 4 with
  | 0 => m
  | 1 => transpose (fliplr m)
  | 2 => fliplr (flipud m)
  | _ => fliplr (transpose m)
  end.

(** Row-major split of a vector into [h] rows of [w] entries. *)
Fixpoint rows_of (h w : nat) (v : list A) : matrix A :=
  match h with
  | 0 => []
  | S h' => take w v :: rows_of h' w (drop w v)
  end.

(** [v.reshape(h, w)]: numpy raises [ValueError] unless the vector has
    exactly [h * w] entries. *)
Definition reshape (h w : nat) (v : list A) : option (matrix A) :=
  if decide (length v = h * w) then Some (rows_of h w v) else None.

(** [m.flatten()]: row-major. *)
Definition flatten (m : matrix A) : list A := concat m.

(** A matrix of shape [h] x [w], and its entry in row [i], column [j]. *)
Definition has_shape (h w : nat) (m : matrix A) : Prop :=
  length m = h ∧ Forall (λ r, length r = w) m.
Definition entry (m : matrix A) (i j : nat) : option A := m !! i ≫= (.!! j).
End Arrays.
End Numpy.

(** ** [collections.deque(maxlen=C)] *)

Module Deque.
Section Bounded.
Context {A : Type}.

(** [d.append(x)] on a deque of maximal length [maxlen]: the item is
    put at the right end, and if the deque is now longer than [maxlen]
    one item is dropped from the left end. *)
Definition append (maxlen : nat) (d : list A) (x : A) : list A :=
  let d' := d ++ [x] in
  if decide (maxlen < length d') then drop 1 d' else d'.

(** [d.extend(xs)]: append the items of [xs] from left to right. *)
Definition extend (maxlen : nat) (d : list A) (xs : list A) : list A :=
  foldl (append maxlen) d xs.

(** The buffer after a sequence of [extend] calls, oldest call first. *)
Definition extend_all (maxlen : nat) (d : list A) (calls : list (list A))
  : list A :=
  foldl (extend maxlen) d calls.
End Bounded.
End Deque.

(** ** Exceptions and results *)

Inductive exn : Type :=
  | ValueError          (* reshape of a wrong size, sample larger than population *)
  | UnboundLocalError   (* a local read before any assignment (a NameError) *)
  | ZeroDivisionError   (* [%] or [/] by zero *)
  | IndexError.

Inductive result (A : Type) : Type :=
  | Ok (a : A)
  | Raise (e : exn).
Global Arguments Ok {A} a.
Global Arguments Raise {A} e.

(** Comparisons of floats, as booleans. *)
Definition Qlt_bool (x y : Q) : bool := negb (Qle_bool y x).

(** ** The symmetry augmentation, [TrainPipeline.get_equi_data] *)

Module Augment.
Import Numpy.
Section GetEquiData.
Context {A : Type}.

(** A state tensor is the list of its channels. *)
Definition state := list (matrix A).
(** [(state, mcts_prob, winner_z)] *)
Definition triple : Type := state * list A * A.

Definition winner_of (t : triple) : A := t.2.
Definition prob_of (t : triple) : list A := t.1.2.
Definition state_of (t : triple) : state := t.1.1.

Variables board_height board_width : nat.

(** The body of [for i in [1, 2, 3, 4]]: the two tuples appended to
    [extend_data] for one triple and one [i]. *)
Definition equi_step (t : triple) (i : nat) : option (list triple) :=
  let '(state, mcts_porb, winner) := t in
  (* rotate counterclockwise *)
  let equi_state := (λ s, rot90 s i) <$> state in
  board ← reshape board_height board_width mcts_porb;
  let equi_mcts_prob := rot90 (flipud board) i in
  let first := (equi_state, flatten (flipud equi_mcts_prob), winner) in
  (* flip horizontally *)
  let equi_state := fliplr <$> equi_state in
  let equi_mcts_prob := fliplr equi_mcts_prob in
  Some [first; (equi_state, flatten (flipud equi_mcts_prob), winner)].

(** [get_equi_data(play_data)]; [None] is the [ValueError] of a
    [reshape] whose vector does not have [board_height * board_width]
    entries. *)
Definition get_equi_data (play_data : list triple) : option (list triple) :=
  @concat triple <$>
    mapM (λ t, @concat triple <$> mapM (equi_step t) [1; 2; 3; 4]) play_data.

(** The augmenter in the words of its contract: for a triple and a
    rotation step [k], the rotated state, the probability board flipped
    vertically, rotated by [k] and flipped vertically again, and the
    horizontal mirror image of that pair; the outcome is copied. *)
Definition rotated_state (k : nat) (t : triple) : state :=
  (λ s, rot90 s k) <$> state_of t.
Definition rotated_board (k : nat) (t : triple) : matrix A :=
  flipud (rot90 (flipud (rows_of board_height board_width (prob_of t))) k).
Definition variants (t : triple) (k : nat) : list triple :=
  [ (rotated_state k t, flatten (rotated_board k t), winner_of t);
    (fliplr <$> rotated_state k t, flatten (fliplr (rotated_board k t)),
     winner_of t) ].
Definition augmented (play_data : list triple) : list triple :=
  t ← play_data; k ← [1; 2; 3; 4]; variants t k.
End GetEquiData.
Global Arguments state : clear implicits.
Global Arguments triple : clear implicits.
End Augment.

(** ** The training pipeline *)

Module Pipeline.
Import Numpy.

Definition state := Augment.state Q.
Definition triple := Augment.triple Q.

(** The entries of [conf] read by [__init__]. *)
Record Config : Type := {
  board_width : nat;
  board_height : nat;
  learn_rate : Q;
  conf_lr_multiplier : Q;
  temp : Q;
  buffer_size : nat;
  batch_size : nat;
  epochs : nat;
  kl_targ : Q;
  check_freq : nat;
  game_batch_num : nat;
  conf_pure_mcts_playout_num : Z;
}.

(** Calls that leave the pipeline, and the entry into [policy_update]:
    a ghost log kept next to the object's state, newest entry first. *)
Inductive call : Type :=
  | StartSelfPlay (file_name : string)
  | EnterPolicyUpdate
  | RandomSample (k : nat)
  | TrainStep (learn_rate : Q)
  | StartPlay (start_player : nat) (n_playout : Z)
  | SaveCurrentModel
  | SaveBestModel (i : nat).

(** The collaborators of the pipeline, which live outside
    [train_mxnet.py]: the game, the tree search, the network,
    [random.sample] and [np.log]. *)
Class Collaborators : Type := {
  (** The parameters of the policy-value network, and everything else the
      collaborators read and update (random generators, the board). *)
  net : Type;
  world : Type;
  (** [policy_value(state_batch)] gives [(probs, values)]. *)
  policy_value : net → list state → list (list Q) * list Q;
  (** [train_step(state_batch, mcts_probs, winner_batch, lr)] gives
      [(loss, entropy)] and updates the network. *)
  train_step : net → list state → list (list Q) → list Q → Q → (Q * Q) * net;
  (** [game.start_self_play(player, temp, sgf_home, file_name)] gives
      [(warning, winner, play_data)]. *)
  start_self_play : world → net → Q → string → (bool * Z * list triple) * world;
  (** [game.start_play(current, pure_mcts(n_playout), start_player)] gives
      the winner: 1 for the first player given (the learner), 2 for the
      second, -1 for a tie. *)
  start_play : world → net → Z → nat → Z * world;
  (** [random.sample(population, k)] for [0 <= k <= len(population)]. *)
  random_sample : world → list triple → nat → list triple * world;
  np_log : Q → Q;
}.

Section Methods.
Context `{Collaborators}.

(** The attributes of a [TrainPipeline] object. *)
Record TrainPipeline : Type := {
  conf : Config;
  lr_multiplier : Q;
  data_buffer : list triple;
  best_win_ratio : Q;
  pure_mcts_playout_num : Z;
  training_data : list string;
  episode_len : option nat;
  policy_value_net : net;
  env : world;
  calls : list call;
}.

Definition set_lr_multiplier (m : Q) (self : TrainPipeline) :=
  {| conf := conf self; lr_multiplier := m;
     data_buffer := data_buffer self; best_win_ratio := best_win_ratio self;
     pure_mcts_playout_num := pure_mcts_playout_num self;
     training_data := training_data self; episode_len := episode_len self;
     policy_value_net := policy_value_net self; env := env self;
     calls := calls self |}.
Definition set_data_buffer (d : list triple) (self : TrainPipeline) :=
  {| conf := conf self; lr_multiplier := lr_multiplier self;
     data_buffer := d; best_win_ratio := best_win_ratio self;
     pure_mcts_playout_num := pure_mcts_playout_num self;
     training_data := training_data self; episode_len := episode_len self;
     policy_value_net := policy_value_net self; env := env self;
     calls := calls self |}.
Definition set_best_win_ratio (r : Q) (self : TrainPipeline) :=
  {| conf := conf self; lr_multiplier := lr_multiplier self;
     data_buffer := data_buffer self; best_win_ratio := r;
     pure_mcts_playout_num := pure_mcts_playout_num self;
     training_data := training_data self; episode_len := episode_len self;
     policy_value_net := policy_value_net self; env := env self;
     calls := calls self |}.
Definition set_pure_mcts_playout_num (n : Z) (self : TrainPipeline) :=
  {| conf := conf self; lr_multiplier := lr_multiplier self;
     data_buffer := data_buffer self; best_win_ratio := best_win_ratio self;
     pure_mcts_playout_num := n;
     training_data := training_data self; episode_len := episode_len self;
     policy_value_net := policy_value_net self; env := env self;
     calls := calls self |}.
Definition set_episode_len (n : nat) (self : TrainPipeline) :=
  {| conf := conf self; lr_multiplier := lr_multiplier self;
     data_buffer := data_buffer self; best_win_ratio := best_win_ratio self;
     pure_mcts_playout_num := pure_mcts_playout_num self;
     training_data := training_data self; episode_len := Some n;
     policy_value_net := policy_value_net self; env := env self;
     calls := calls self |}.
Definition set_policy_value_net (n : net) (self : TrainPipeline) :=
  {| conf := conf self; lr_multiplier := lr_multiplier self;
     data_buffer := data_buffer self; best_win_ratio := best_win_ratio self;
     pure_mcts_playout_num := pure_mcts_playout_num self;
     training_data := training_data self; episode_len := episode_len self;
     policy_value_net := n; env := env self;
     calls := calls self |}.
Definition set_env (w : world) (self : TrainPipeline) :=
  {| conf := conf self; lr_multiplier := lr_multiplier self;
     data_buffer := data_buffer self; best_win_ratio := best_win_ratio self;
     pure_mcts_playout_num := pure_mcts_playout_num self;
     training_data := training_data self; episode_len := episode_len self;
     policy_value_net := policy_value_net self; env := w;
     calls := calls self |}.
Definition record_call (c : call) (self : TrainPipeline) :=
  {| conf := conf self; lr_multiplier := lr_multiplier self;
     data_buffer := data_buffer self; best_win_ratio := best_win_ratio self;
     pure_mcts_playout_num := pure_mcts_playout_num self;
     training_data := training_data self; episode_len := episode_len self;
     policy_value_net := policy_value_net self; env := env self;
     calls := c :: calls self |}.

(** A method: from the object's state to what it returns or raises, and
    the state it leaves. *)
Definition M (A : Type) : Type := TrainPipeline → result A * TrainPipeline.

Definition ret {A} (a : A) : M A := λ self, (Ok a, self).
Definition raise {A} (e : exn) : M A := λ self, (Raise e, self).
Definition bind {A B} (m : M A) (k : A → M B) : M B :=
  λ self,
    match m self with
    | (Ok a, self') => k a self'
    | (Raise e, self') => (Raise e, self')
    end.
Definition get : M TrainPipeline := λ self, (Ok self, self).
Definition modify (f : TrainPipeline → TrainPipeline) : M unit :=
  λ self, (Ok (), f self).

Global Instance M_ret : MRet M := @ret.
Global Instance M_bind : MBind M := λ A B k m, bind m k.

(** [for x in xs: body(x)] *)
Fixpoint for_each {A} (xs : list A) (body : A → M unit) : M unit :=
  match xs with
  | [] => ret ()
  | x :: xs' => body x;; for_each xs' body
  end.

(** [__init__(conf)], with the shuffled list of training files that
    [_load_training_data] leaves and the network and the environment it
    starts from. *)
Definition init (c : Config) (files : list string) (n : net) (w : world)
  : TrainPipeline :=
  {| conf := c; lr_multiplier := conf_lr_multiplier c;
     data_buffer := []; best_win_ratio := 0.0%Q;
     pure_mcts_playout_num := conf_pure_mcts_playout_num c;
     training_data := files; episode_len := None;
     policy_value_net := n; env := w; calls := [] |}.

(** *** [collect_selfplay_data] *)

Definition self_play_once (data_index : nat) : M unit :=
  self ← get;
  match training_data self !! data_index with
  | None => raise IndexError
  | Some file_name =>
      let '((warning, winner, play_data), w) :=
        start_self_play (env self) (policy_value_net self)
                        (temp (conf self)) file_name in
      modify (λ s, set_episode_len (length play_data)
                     (set_env w (record_call (StartSelfPlay file_name) s)));;
      (* augment the data *)
      match Augment.get_equi_data (board_height (conf self))
                                  (board_width (conf self)) play_data with
      | None => raise ValueError
      | Some play_data =>
          modify (λ s, set_data_buffer
                         (Deque.extend (buffer_size (conf s))
                                       (data_buffer s) play_data) s)
      end
  end.

Definition collect_selfplay_data (n_games training_index : nat) : M unit :=
  self ← get;
  match length (training_data self) with
  | 0 => raise ZeroDivisionError
  | S _ =>
      let data_index := training_index mod length (training_data self) in
      for_each (seq 0 n_games) (λ _, self_play_once data_index)
  end.

(** *** [policy_update] *)

(** [np.sum(row)] and [np.mean(xs)]; the mean is that of numpy on a
    non-empty array only: of an empty one numpy gives nan, which the
    rationals do not have, so what is proved of a measured KL is proved
    for a non-empty batch. *)
Definition np_sum (row : list Q) : Q := foldr Qplus 0%Q row.
Definition np_mean (xs : list Q) : Q :=
  (np_sum xs / inject_Z (Z.of_nat (length xs)))%Q.

(** [np.mean(np.sum(old_probs * (np.log(old_probs + 1e-10)
                                 - np.log(new_probs + 1e-10)), axis=1))] *)
Definition kl_divergence (old_probs new_probs : list (list Q)) : Q :=
  np_mean
    (np_sum <$>
       zip_with
         (zip_with (λ p q, p * (np_log (p + 1e-10) - np_log (q + 1e-10)))%Q)
         old_probs new_probs).

(** The locals that only the body of the epoch loop assigns. *)
Record epoch_locals : Type := {
  loss : Q;
  entropy : Q;
  new_v : list Q;
  kl : Q;
}.

(** [for i in range(self.epochs)] with its [break]; [n] counts the
    epochs that remain and [locals] is [None] as long as no epoch has
    run. *)
Fixpoint epoch_loop (n : nat)
    (state_batch : list state) (mcts_probs_batch : list (list Q))
    (winner_batch : list Q) (old_probs : list (list Q)) (lr : Q)
    (locals : option epoch_locals) : M (option epoch_locals) :=
  match n with
  | 0 => mret locals
  | S n' =>
      self ← get;
      let '((loss, entropy), net') :=
        train_step (policy_value_net self) state_batch mcts_probs_batch
                   winner_batch lr in
      modify (λ s, set_policy_value_net net' (record_call (TrainStep lr) s));;
      let '(new_probs, new_v) := policy_value net' state_batch in
      let kl := kl_divergence old_probs new_probs in
      let locals :=
        Some {| loss := loss; entropy := entropy; new_v := new_v; kl := kl |} in
      if Qlt_bool (kl_targ (conf self) * 4) kl
      then mret locals  (* early stopping if D_KL diverges badly *)
      else epoch_loop n' state_batch mcts_probs_batch winner_batch
                      old_probs lr locals
  end.

(** [random.sample(self.data_buffer, self.batch_size)] *)
Definition sample_buffer : M (list triple) :=
  self ← get;
  modify (record_call (RandomSample (batch_size (conf self))));;
  if decide (batch_size (conf self) ≤ length (data_buffer self)) then
    let '(mini_batch, w) :=
      random_sample (env self) (data_buffer self) (batch_size (conf self)) in
    modify (set_env w);; mret mini_batch
  else raise ValueError.

(** The adaptive adjustment of the learning rate. *)
Definition adapt_lr_multiplier (kl_targ kl m : Q) : Q :=
  if Qlt_bool (kl_targ * 2) kl && Qlt_bool 0.05 m then (m / 1.5)%Q
  else if Qlt_bool kl (kl_targ / 2) && Qlt_bool m 20 then (m * 1.5)%Q
  else m.

(** The explained variances that follow the adjustment are only
    logged; they read [new_v], which, like [kl], [loss] and [entropy],
    is assigned in the loop body only. *)
Definition policy_update : M (Q * Q) :=
  modify (record_call EnterPolicyUpdate);;
  mini_batch ← sample_buffer;
  let state_batch := Augment.state_of <$> mini_batch in
  let mcts_probs_batch := Augment.prob_of <$> mini_batch in
  let winner_batch := Augment.winner_of <$> mini_batch in
  self ← get;
  let '(old_probs, old_v) :=
    policy_value (policy_value_net self) state_batch in
  let lr := (learn_rate (conf self) * lr_multiplier self)%Q in
  locals ← epoch_loop (epochs (conf self)) state_batch mcts_probs_batch
                      winner_batch old_probs lr None;
  match locals with
  | None => raise UnboundLocalError
  | Some l =>
      (* adaptively adjust the learning rate *)
      modify (λ s, set_lr_multiplier
                     (adapt_lr_multiplier (kl_targ (conf s)) (kl l)
                                          (lr_multiplier s)) s);;
      mret (loss l, entropy l)
  end.

(** *** [policy_evaluate] *)

(** [win_cnt[winner] += 1] on a [defaultdict(int)] *)
Definition count_win (win_cnt : gmap Z nat) (winner : Z) : gmap Z nat :=
  <[winner := S (win_cnt !!! winner)]> win_cnt.

(** The loop over [range(n_games)], given as the list of its indices. *)
Fixpoint play_games (games : list nat) (win_cnt : gmap Z nat)
  : M (gmap Z nat) :=
  match games with
  | [] => mret win_cnt
  | i :: games' =>
      self ← get;
      let '(winner, w) :=
        start_play (env self) (policy_value_net self)
                   (pure_mcts_playout_num self) (i mod 2) in
      modify (λ s, set_env w
                (record_call (StartPlay (i mod 2) (pure_mcts_playout_num self)) s));;
      play_games games' (count_win win_cnt winner)
  end.

Definition win_ratio_of (win_cnt : gmap Z nat) (n_games : nat) : Q :=
  (1.0 * (inject_Z (Z.of_nat (win_cnt !!! 1%Z))
          + 0.5 * inject_Z (Z.of_nat (win_cnt !!! (-1)%Z)))
   / inject_Z (Z.of_nat n_games))%Q.

Definition policy_evaluate (n_games : nat) : M Q :=
  win_cnt ← play_games (seq 0 n_games) ∅;
  match n_games with
  | 0 => raise ZeroDivisionError
  | S _ => mret (win_ratio_of win_cnt n_games)
  end.

(** *** [run] *)

(** What follows a call of [policy_evaluate] in the loop body. *)
Definition record_evaluation (i : nat) (win_ratio : Q) : M unit :=
  self ← get;
  if Qlt_bool (best_win_ratio self) win_ratio then
    modify (set_best_win_ratio win_ratio);;
    (* update the best_policy *)
    modify (record_call (SaveBestModel i));;
    self ← get;
    if Qle_bool 0.98 (best_win_ratio self)
       && bool_decide (pure_mcts_playout_num self < 8000)%Z
    then
      modify (λ s, set_pure_mcts_playout_num (pure_mcts_playout_num s + 1000) s);;
      modify (set_best_win_ratio 0.0%Q)
    else mret ()
  else mret ().

(** The part of the loop body after the training step. *)
Definition check_and_save (i : nat) : M unit :=
  (if decide ((i + 1) mod 50 = 0)
   then modify (record_call SaveCurrentModel) else mret ());;
  self ← get;
  match check_freq (conf self) with
  | 0 => raise ZeroDivisionError
  | S _ =>
      if decide ((i + 1) mod check_freq (conf self) = 0) then
        win_ratio ← policy_evaluate 10;
        record_evaluation i win_ratio
      else mret ()
  end.

(** One pass through the body of [for i in range(self.game_batch_num)]. *)
Definition cycle (i : nat) : M unit :=
  collect_selfplay_data 1 i;;
  self ← get;
  (if decide (batch_size (conf self) < length (data_buffer self))
   then policy_update;; mret () else mret ());;
  check_and_save i.

Definition run : M unit :=
  self ← get;
  for_each (seq 0 (game_batch_num (conf self))) cycle.

(** *** One policy update seen from outside its loop

    The batch drawn, the snapshot [old_probs] taken before the first
    epoch, the network after [j] training steps on that batch, and the
    values the loop body assigns in epoch [j] (counted from 1). *)
Section Epochs.
Variable self : TrainPipeline.

Definition mini_batch_of : list triple :=
  (random_sample (env self) (data_buffer self) (batch_size (conf self))).1.
Definition state_batch_of : list state := Augment.state_of <$> mini_batch_of.
Definition mcts_probs_batch_of : list (list Q) :=
  Augment.prob_of <$> mini_batch_of.
Definition winner_batch_of : list Q := Augment.winner_of <$> mini_batch_of.
Definition old_probs_of : list (list Q) :=
  (policy_value (policy_value_net self) state_batch_of).1.
Definition learn_rate_of : Q :=
  (learn_rate (conf self) * lr_multiplier self)%Q.

Definition train_on_batch (n : net) : (Q * Q) * net :=
  train_step n state_batch_of mcts_probs_batch_of winner_batch_of
             learn_rate_of.
Definition net_after (j : nat) : net :=
  Nat.iter j (λ n, (train_on_batch n).2) (policy_value_net self).
Definition kl_after (j : nat) : Q :=
  kl_divergence old_probs_of (policy_value (net_after j) state_batch_of).1.
Definition locals_after (j : nat) : epoch_locals :=
  {| loss := (train_on_batch (net_after (pred j))).1.1;
     entropy := (train_on_batch (net_after (pred j))).1.2;
     new_v := (policy_value (net_after j) state_batch_of).2;
     kl := kl_after j |}.

(** The KL measured in epoch [i] exceeds four times the target. *)
Definition exceeds (i : nat) : Prop :=
  (kl_targ (conf self) * 4 < kl_after i)%Q.

(** Epoch [j] is where the loop ends: it is the first epoch whose KL
    exceeds four times the target, or the last of the [epochs]
    configured when there is none. *)
Definition last_epoch (j : nat) : Prop :=
  1 ≤ j ≤ epochs (conf self)
  ∧ (∀ i, 1 ≤ i < j → ¬ exceeds i)
  ∧ (j < epochs (conf self) → exceeds j).
End Epochs.

(** The winners of the games of one evaluation, first game first. *)
Fixpoint winners (w : world) (n : net) (n_playout : Z) (starts : list nat)
  : list Z :=
  match starts with
  | [] => []
  | start_player :: starts' =>
      let '(winner, w') := start_play w n n_playout start_player in
      winner :: winners w' n n_playout starts'
  end.

(** How often [x] is among the winners. *)
Definition tally (x : Z) (ws : list Z) : nat := length (filter (λ y, y = x) ws).

(** The calls made since an earlier state of the object, oldest first. *)
Definition calls_since (before after : TrainPipeline) : list call :=
  reverse (take (length (calls after) - length (calls before)) (calls after)).

(** The calls of [s'] are those of [s] and, before them, new ones that
    all satisfy [P]. *)
Definition logged (P : call → Prop) (s s' : TrainPipeline) : Prop :=
  ∃ new, calls s' = new ++ calls s ∧ Forall P new.

(** [s'] has the configuration and the training state of [s]: only the
    buffer, the network, the environment and the log may differ. *)
Definition kept (s s' : TrainPipeline) : Prop :=
  conf s' = conf s
  ∧ lr_multiplier s' = lr_multiplier s
  ∧ best_win_ratio s' = best_win_ratio s
  ∧ pure_mcts_playout_num s' = pure_mcts_playout_num s
  ∧ training_data s' = training_data s.

(** [s'] has the best win ratio and the baseline strength of [s]. *)
Definition same_evaluation (s s' : TrainPipeline) : Prop :=
  best_win_ratio s' = best_win_ratio s
  ∧ pure_mcts_playout_num s' = pure_mcts_playout_num s.

(** From a baseline at its ceiling: the baseline stays and the best win
    ratio does not go down. *)
Definition at_ceiling (s s' : TrainPipeline) : Prop :=
  (8000 ≤ pure_mcts_playout_num s)%Z →
  pure_mcts_playout_num s' = pure_mcts_playout_num s
  ∧ (best_win_ratio s <= best_win_ratio s')%Q.

(** A method takes every state to one related to it by [R], whether it
    returns or raises. *)
Definition steps (R : relation TrainPipeline) {A} (m : M A) : Prop :=
  ∀ s, R s (m s).2.

(** [R] is blind to the network, the environment and the episode
    length, and to the calls that satisfy [P]. *)
Class Frame (P : call → Prop) (R : relation TrainPipeline) : Prop := {
  frame_call s c : P c → R s (record_call c s);
  frame_env s w : R s (set_env w s);
  frame_episode_len s n : R s (set_episode_len n s);
  frame_net s n : R s (set_policy_value_net n s);
}.

(** [R] holds when the buffer is extended as [collect_selfplay_data]
    extends it. *)
Class BufferFrame (R : relation TrainPipeline) : Prop :=
  frame_extend s d :
    R s (set_data_buffer
           (Deque.extend (buffer_size (conf s)) (data_buffer s) d) s).

(** The buffer holds at most [buffer_size] samples in [s'] if it does in
    [s]. *)
Definition buffer_bounded (s s' : TrainPipeline) : Prop :=
  conf s' = conf s
  ∧ (length (data_buffer s) ≤ buffer_size (conf s) →
     length (data_buffer s') ≤ buffer_size (conf s)).

(** The object after a policy update that ran [j] epochs. *)
Definition policy_updated (self : TrainPipeline) (j : nat) : TrainPipeline :=
  {| conf := conf self;
     lr_multiplier :=
       adapt_lr_multiplier (kl_targ (conf self)) (kl_after self j)
                           (lr_multiplier self);
     data_buffer := data_buffer self;
     best_win_ratio := best_win_ratio self;
     pure_mcts_playout_num := pure_mcts_playout_num self;
     training_data := training_data self;
     episode_len := episode_len self;
     policy_value_net := net_after self j;
     env := (random_sample (env self) (data_buffer self)
                           (batch_size (conf self))).2;
     calls := replicate j (TrainStep (learn_rate_of self))
              ++ RandomSample (batch_size (conf self))
              :: EnterPolicyUpdate :: calls self |}.

(** The multiplier after a run of adjustments, one per measured KL. *)
Definition adapted (kl_targ : Q) (m : Q) (kls : list Q) : Q :=
  foldl (λ m kl, adapt_lr_multiplier kl_targ kl m) m kls.

(** The range the adjustment keeps the multiplier in. *)
Definition lr_in_range (m : Q) : Prop := (0.05 / 1.5 < m ∧ m < 20 * 1.5)%Q.
Definition stays_in_range (s s' : TrainPipeline) : Prop :=
  lr_in_range (lr_multiplier s) → lr_in_range (lr_multiplier s').

(** *** Further relations and predicates on runs *)

(** Every game the collaborator plays has probability vectors of
    [h * w] entries. *)
Definition well_shaped_games (h w : nat) : Prop :=
  ∀ wd n t f,
    Forall (λ x, length (Augment.prob_of x) = h * w)
           (start_self_play wd n t f).1.2.

(** [s'] has the configuration and the training files of [s]. *)
Definition same_setup (s s' : TrainPipeline) : Prop :=
  conf s' = conf s ∧ training_data s' = training_data s.

(** The baseline strength does not go down, moves by multiples of 1000
    and does not pass 8999 unless it was beyond already. *)
Definition baseline_steps (s s' : TrainPipeline) : Prop :=
  (pure_mcts_playout_num s ≤ pure_mcts_playout_num s')%Z
  ∧ (1000 | pure_mcts_playout_num s' - pure_mcts_playout_num s)%Z
  ∧ (pure_mcts_playout_num s' ≤ pure_mcts_playout_num s `max` 8999)%Z.

(** What a failed policy update leaves as it was. *)
Definition same_model (s s' : TrainPipeline) : Prop :=
  lr_multiplier s' = lr_multiplier s
  ∧ policy_value_net s' = policy_value_net s
  ∧ data_buffer s' = data_buffer s.

(** The opening file of a self-play game in the log. *)
Definition self_play_file (c : call) : option string :=
  match c with StartSelfPlay f => Some f | _ => None end.

Definition not_self_play (c : call) : Prop := self_play_file c = None.

(** *** What the collaborators are taken to deliver

    [random.sample(population, k)] gives [k] items, and the network
    answers a batch of states with one row of [n_actions] probabilities
    per state. *)
Definition sample_sized : Prop :=
  ∀ w population k,
    k ≤ length population → length (random_sample w population k).1 = k.

Definition policy_shaped (n_actions : nat) : Prop :=
  ∀ n batch, Numpy.has_shape (length batch) n_actions (policy_value n batch).1.

(** *** The KL divergence in the words of the specification

    [mean_over_batch(sum_over_actions(old * (log(old + eps)
    - log(new + eps))))], with the sums written over the indices of
    the batch and of the actions. *)
Definition sum_from (k n : nat) (f : nat → Q) : Q :=
  foldr (λ i acc, f i + acc)%Q 0%Q (seq k n).

Definition sum_over_actions (n_actions : nat) (f : nat → Q) : Q :=
  sum_from 0 n_actions f.

Definition mean_over_batch (batch : nat) (f : nat → Q) : Q :=
  (sum_from 0 batch f / inject_Z (Z.of_nat batch))%Q.

(** The probability of action [a] in row [b]. *)
Definition prob_at (probs : list (list Q)) (b a : nat) : Q :=
  default 0%Q (Numpy.entry probs b a).

Definition spec_kl (batch n_actions : nat) (old_probs new_probs : list (list Q))
  : Q :=
  mean_over_batch batch (λ b,
    sum_over_actions n_actions (λ a,
      prob_at old_probs b a
      * (np_log (prob_at old_probs b a + 1e-10)
         - np_log (prob_at new_probs b a + 1e-10))))%Q.

(** The opening files of the self-play games [after] has played since
    [before], oldest first. *)
Definition files_played (before after : TrainPipeline) : list string :=
  omap self_play_file (calls_since before after).

End Methods.

(** *** A small instance, to run the pipeline on

    A 1 x 1 board whose self-play games last one move; the network is
    the number of training steps taken so far and its policy swaps
    between two actions at every step; [np.log] is replaced by
    [x - 1]; the environment counts the evaluation games played: the
    learner loses the odd ones among the first ten and wins all others. *)
Definition demo : Collaborators := {|
  net := nat;
  world := nat;
  policy_value := λ n batch,
    ((λ _, if Nat.even n then [1; 0] else [0; 1])%Q <$> batch, (λ _, 0%Q) <$> batch);
  train_step := λ n _ _ _ _, ((0%Q, 0%Q), S n);
  start_self_play := λ w _ _ _, ((false, 1%Z, [([[[1%Q]]], [1%Q], 1%Q)]), w);
  start_play := λ w _ _ _,
    (if (w <? 10) && Nat.odd w then 2%Z else 1%Z, S w);
  random_sample := λ w population k, (take k population, w);
  np_log := λ x, (x - 1)%Q;
|}.

Definition demo_conf (check_freq game_batch_num : nat) : Config := {|
  board_width := 1; board_height := 1;
  learn_rate := 0.002; conf_lr_multiplier := 1.0; temp := 1.0;
  buffer_size := 16; batch_size := 4; epochs := 1; kl_targ := 0.02;
  check_freq := check_freq; game_batch_num := game_batch_num;
  conf_pure_mcts_playout_num := 1000;
|}.

Definition demo_init (check_freq game_batch_num : nat) : @TrainPipeline demo :=
  @init demo (demo_conf check_freq game_batch_num) ["a.sgf"; "b.sgf"] 0 0.

(** The small instance with [epochs] epochs to an update; the policy
    swaps at the first training step, which gives a KL of 1. *)
Definition demo_init_epochs (epochs : nat) : @TrainPipeline demo :=
  @init demo
    {| board_width := 1; board_height := 1;
       learn_rate := 0.002; conf_lr_multiplier := 1.0; temp := 1.0;
       buffer_size := 16; batch_size := 4; epochs := epochs; kl_targ := 0.02;
       check_freq := 1; game_batch_num := 2;
       conf_pure_mcts_playout_num := 1000 |}
    ["a.sgf"; "b.sgf"] 0 0.

End Pipeline.

(** ** [TrainPipeline._load_training_data] *)

Module Loader.

(** [s.endswith(suffix)] *)
Definition endswith (s suffix : string) : bool :=
  let n := String.length s in
  let m := String.length suffix in
  (m <=? n) && String.eqb (String.substring (n - m) m s) suffix.

(** [_load_training_data(data_dir)], given what [os.listdir(data_dir)]
    returns, what [os.path.isfile] answers for an entry of the directory
    and what [random.shuffle] makes of a list; [_length_train_data] is
    the length of the result. *)
Definition _load_training_data (file_list : list string)
    (isfile : string → bool) (shuffle : list string → list string)
  : list string :=
  shuffle (filter (λ item, endswith item ".sgf" && isfile item) file_list).

End Loader.

(** * Properties *)

(** ** The bounded buffer *)

Section DequeFacts.
Context {A : Type}.
Implicit Types (d xs : list A) (C : nat).

(** The last [C] entries of a list. *)
Local Abbreviation lastn C l := (drop (length l - C) l).

Lemma lastn_length C (l : list A) : length (lastn C l) = length l `min` C.
Proof. rewrite length_drop. lia. Qed.

Lemma lastn_app_lastn C (a b : list A) :
  lastn C (lastn C a ++ b) = lastn C (a ++ b).
Proof.
  rewrite !drop_app, drop_drop, !length_app, !length_drop.
  f_equal; f_equal; lia.
Qed.

Lemma append_lastn C d x :
  length d ≤ C → Deque.append C d x = lastn C (d ++ [x]).
Proof.
  intros Hd. unfold Deque.append. rewrite length_app. simpl.
  case_decide.
  - by replace (length d + 1 - C) with 1 by lia.
  - by replace (length d + 1 - C) with 0 by lia.
Qed.

Lemma append_length C d x : length d ≤ C → length (Deque.append C d x) ≤ C.
Proof. intros. rewrite append_lastn, lastn_length by done. lia. Qed.

Lemma extend_lastn C xs : ∀ d,
  length d ≤ C → Deque.extend C d xs = lastn C (d ++ xs).
Proof.
  unfold Deque.extend.
  induction xs as [|x xs IH]; intros d Hd; simpl.
  - rewrite app_nil_r. by replace (length d - C) with 0 by lia.
  - rewrite IH by by apply append_length.
    rewrite append_lastn by done. rewrite lastn_app_lastn.
    by rewrite <-app_assoc.
Qed.

Lemma extend_length C d xs : length d ≤ C → length (Deque.extend C d xs) ≤ C.
Proof. intros. rewrite extend_lastn, lastn_length by done. lia. Qed.

Lemma extend_all_concat C calls : ∀ d,
  Deque.extend_all C d calls = Deque.extend C d (concat calls).
Proof.
  unfold Deque.extend_all, Deque.extend.
  induction calls as [|c calls IH]; intros d; simpl; [done|].
  by rewrite IH, foldl_app.
Qed.

(** C2. After [extend] calls that insert more than [C] samples in
    total, the buffer holds exactly [C] samples, namely the last [C]
    inserted, in the order of insertion; and its size is at most [C]
    after every call, and after every single insertion. *)
Theorem buffer_keeps_most_recent C (calls : list (list A)) :
  C < length (concat calls) →
  length (Deque.extend_all C [] calls) = C
  ∧ Deque.extend_all C [] calls
    = drop (length (concat calls) - C) (concat calls)
  ∧ (∀ k, length (Deque.extend_all C [] (take k calls)) ≤ C)
  ∧ (∀ n, length (Deque.extend C [] (take n (concat calls))) ≤ C).
Proof.
  intros Hlen.
  assert (Deque.extend_all C [] calls
          = drop (length (concat calls) - C) (concat calls)) as Heq.
  { rewrite extend_all_concat, extend_lastn by (simpl; lia). done. }
  split_and!.
  - rewrite Heq, length_drop. lia.
  - done.
  - intros k. rewrite extend_all_concat. apply extend_length. simpl. lia.
  - intros n. apply extend_length. simpl. lia.
Qed.

End DequeFacts.

Lemma buffer_keeps_most_recent_witness :
  3 < length (concat [[1; 2]; [3; 4; 5; 6]; [7]])
  ∧ length (Deque.extend_all 3 [] [[1; 2]; [3; 4; 5; 6]; [7]]) = 3
  ∧ Deque.extend_all 3 [] [[1; 2]; [3; 4; 5; 6]; [7]] = [5; 6; 7].
Proof.
  assert (3 < length (concat [[1; 2]; [3; 4; 5; 6]; [7]])) as Hlen
    by (simpl; lia).
  split; [exact Hlen|].
  destruct (buffer_keeps_most_recent 3 [[1; 2]; [3; 4; 5; 6]; [7]] Hlen)
    as (H1 & H2 & _).
  split; [exact H1 | exact H2].
Defined.

(** ** Flips, transposition and quarter turns *)

Section NumpyFacts.
Import Numpy.
Context {A : Type}.
Implicit Types (m : matrix A) (r : list A).

Lemma has_shape_lookup h w m i r :
  has_shape h w m → m !! i = Some r → length r = w.
Proof.
  intros [_ Hall] Hi. rewrite Forall_forall in Hall.
  apply Hall. by eapply list_elem_of_lookup_2.
Qed.

Lemma entry_is_Some h w m i j :
  has_shape h w m → i < h → j < w → is_Some (entry m i j).
Proof.
  intros Hm Hi Hj. unfold entry.
  destruct (lookup_lt_is_Some_2 m i) as [r Hr]; [destruct Hm; lia|].
  rewrite Hr. simpl. apply lookup_lt_is_Some_2.
  by rewrite (has_shape_lookup h w m i r).
Qed.

(** Two matrices of one shape with the same entries are equal. *)
Lemma matrix_eq h w m1 m2 :
  has_shape h w m1 → has_shape h w m2 →
  (∀ i j, i < h → j < w → entry m1 i j = entry m2 i j) → m1 = m2.
Proof.
  intros H1 H2 Hent. apply list_eq. intros i.
  destruct (decide (i < h)) as [Hi|Hi].
  - destruct (lookup_lt_is_Some_2 m1 i) as [r1 Hr1]; [destruct H1; lia|].
    destruct (lookup_lt_is_Some_2 m2 i) as [r2 Hr2]; [destruct H2; lia|].
    rewrite Hr1, Hr2. f_equal. apply list_eq. intros j.
    destruct (decide (j < w)) as [Hj|Hj].
    + specialize (Hent i j Hi Hj). unfold entry in Hent.
      by rewrite Hr1, Hr2 in Hent.
    + rewrite !lookup_ge_None_2; [done|..].
      * rewrite (has_shape_lookup h w m2 i r2) by done. lia.
      * rewrite (has_shape_lookup h w m1 i r1) by done. lia.
  - rewrite !lookup_ge_None_2; [done|destruct H2; lia|destruct H1; lia].
Qed.

Lemma flipud_shape h w m : has_shape h w m → has_shape h w (flipud m).
Proof.
  intros [Hl Hall]. split.
  - unfold flipud. by rewrite length_reverse.
  - unfold flipud. by apply Forall_reverse.
Qed.

Lemma fliplr_shape h w m : has_shape h w m → has_shape h w (fliplr m).
Proof.
  intros [Hl Hall]. split.
  - unfold fliplr. by rewrite length_fmap.
  - unfold fliplr. apply Forall_fmap. eapply Forall_impl; [done|].
    intros r Hr. simpl. by rewrite length_reverse.
Qed.

Lemma flipud_entry h w m i j :
  has_shape h w m → i < h → entry (flipud m) i j = entry m (h - 1 - i) j.
Proof.
  intros [Hl _] Hi. unfold entry, flipud.
  rewrite reverse_lookup by lia. do 2 f_equal. lia.
Qed.

Lemma fliplr_entry h w m i j :
  has_shape h w m → j < w → entry (fliplr m) i j = entry m i (w - 1 - j).
Proof.
  intros Hm Hj. unfold entry, fliplr. rewrite list_lookup_fmap.
  destruct (m !! i) as [r|] eqn:Hr; [|done]. simpl.
  pose proof (has_shape_lookup h w m i r Hm Hr) as Hlen.
  rewrite reverse_lookup by lia. f_equal. lia.
Qed.

Lemma zip_with_cons_lengths h r (cs : matrix A) :
  Forall (λ c, length c = h) cs →
  Forall (λ c, length c = S h) (zip_with cons r cs).
Proof.
  intros Hcs. revert r.
  induction Hcs as [|c cs Hc _ IH]; intros [|x r]; simpl; try constructor.
  - simpl. by rewrite Hc.
  - apply IH.
Qed.

Lemma transpose_w_shape h w m : has_shape h w m → has_shape w h (transpose_w w m).
Proof.
  intros [Hl Hall]. revert h Hl. unfold transpose_w.
  induction Hall as [|r m Hr Hall IH]; intros h Hl; simpl in *.
  - subst h. split; [by rewrite length_replicate|].
    by apply Forall_replicate.
  - destruct h as [|h]; [done|]. destruct (IH h) as [IHl IHall]; [lia|].
    split.
    + rewrite length_zip_with. lia.
    + by apply zip_with_cons_lengths.
Qed.

Lemma transpose_w_entry h w m i j :
  has_shape h w m → i < w → j < h →
  entry (transpose_w w m) i j = entry m j i.
Proof.
  intros [Hl Hall] Hi. revert h j Hl.
  induction Hall as [|r m Hr Hall IH]; intros h j Hl Hj; simpl in *; [lia|].
  destruct h as [|h]; [done|].
  destruct (transpose_w_shape h w m) as [Tl _]; [split; [lia|done]|].
  unfold entry in *. change (transpose_w w (r :: m))
    with (zip_with cons r (transpose_w w m)).
  rewrite lookup_zip_with.
  destruct (lookup_lt_is_Some_2 r i) as [x Hx]; [lia|].
  destruct (lookup_lt_is_Some_2 (transpose_w w m) i) as [c Hc]; [lia|].
  rewrite Hx, Hc. simpl. destruct j as [|j]; simpl; [done|].
  rewrite <-(IH h j) by lia. by rewrite Hc.
Qed.

Lemma ncols_shape h w m : has_shape h w m → 0 < h → ncols m = w.
Proof.
  intros [Hl Hall] Hh. destruct m as [|r m]; simpl in *; [lia|].
  by inversion Hall.
Qed.

Lemma transpose_shape h w m :
  has_shape h w m → 0 < h → has_shape w h (transpose m).
Proof.
  intros Hm Hh. unfold transpose. rewrite (ncols_shape h w) by done.
  by apply transpose_w_shape.
Qed.

Lemma transpose_entry h w m i j :
  has_shape h w m → i < w → j < h → entry (transpose m) i j = entry m j i.
Proof.
  intros Hm Hi Hj. unfold transpose. rewrite (ncols_shape h w) by (done || lia).
  by apply (transpose_w_entry h).
Qed.

(** [rot90 m 1] is the quarter turn counterclockwise: the last column of
    [m] becomes the first row. *)
Lemma rot90_1_shape h w m :
  has_shape h w m → 0 < h → has_shape w h (rot90 m 1).
Proof. intros Hm Hh. apply transpose_shape; [by apply fliplr_shape|done]. Qed.

Lemma rot90_1_entry h w m i j :
  has_shape h w m → i < w → j < h →
  entry (rot90 m 1) i j = entry m j (w - 1 - i).
Proof.
  intros Hm Hi Hj. change (rot90 m 1) with (transpose (fliplr m)).
  rewrite (transpose_entry h w) by (done || by apply fliplr_shape).
  by rewrite (fliplr_entry h w).
Qed.

Lemma rot90_mod m k : rot90 m k = rot90 m (k mod 4).
Proof. unfold rot90. by rewrite Nat.Div0.mod_mod. Qed.

(** [rot90 m k] is [k] quarter turns. *)
Lemma rot90_S h w m k :
  has_shape h w m → 0 < h → 0 < w →
  rot90 m (S k) = rot90 (rot90 m k) 1.
Proof.
  intros Hm Hh Hw.
  rewrite (rot90_mod m (S k)), (rot90_mod m k).
  replace (S k mod 4) with ((k mod 4 + 1) mod 4)
    by (rewrite <-(Nat.add_1_r k), Nat.Div0.add_mod_idemp_l; done).
  pose proof (Nat.mod_upper_bound k 4) as Hk.
  pose proof (fliplr_shape _ _ _ Hm) as HL.
  pose proof (flipud_shape _ _ _ Hm) as HU.
  pose proof (transpose_shape _ _ _ Hm Hh) as HT.
  pose proof (transpose_shape _ _ _ HL Hh) as HTL.
  destruct (k mod 4) as [|[|[|[|?]]]]; [done| | | |lia].
  - (* two quarter turns *)
    change (fliplr (flipud m) = transpose (fliplr (transpose (fliplr m)))).
    apply (matrix_eq h w).
    + by apply fliplr_shape.
    + by apply transpose_shape; [apply fliplr_shape|].
    + intros i j Hi Hj.
      rewrite (fliplr_entry h w), (flipud_entry h w) by (done || lia).
      rewrite (transpose_entry w h) by (done || lia || by apply fliplr_shape).
      rewrite (fliplr_entry w h) by (done || lia).
      rewrite (transpose_entry h w) by (done || lia).
      rewrite (fliplr_entry h w) by (done || lia). done.
  - (* three quarter turns *)
    change (fliplr (transpose m) = transpose (fliplr (fliplr (flipud m)))).
    pose proof (fliplr_shape _ _ _ (fliplr_shape _ _ _ HU)) as HLLU.
    apply (matrix_eq w h).
    + by apply fliplr_shape.
    + by apply transpose_shape.
    + intros i j Hi Hj.
      rewrite (fliplr_entry w h), (transpose_entry h w) by (done || lia).
      rewrite (transpose_entry h w) by (done || lia).
      rewrite (fliplr_entry h w) by (done || lia || by apply fliplr_shape).
      rewrite (fliplr_entry h w), (flipud_entry h w) by (done || lia).
      do 2 f_equal. lia.
  - (* four quarter turns *)
    change (m = transpose (fliplr (fliplr (transpose m)))).
    pose proof (fliplr_shape _ _ _ (fliplr_shape _ _ _ HT)) as HLLT.
    apply (matrix_eq h w); [done|by apply transpose_shape|].
    intros i j Hi Hj.
    rewrite (transpose_entry w h) by (done || lia).
    rewrite (fliplr_entry w h) by (done || lia || by apply fliplr_shape).
    rewrite (fliplr_entry w h), (transpose_entry h w) by (done || lia).
    do 2 f_equal. lia.
Qed.

(** Four quarter turns bring a matrix back. *)
Lemma rot90_4 m : rot90 m 4 = m.
Proof. done. Qed.
End NumpyFacts.

(** ** The augmentation *)

Section AugmentFacts.
Import Numpy Augment.
Context {A : Type}.
Implicit Types (m : matrix A) (t : triple A).

(** The two flips commute. *)
Lemma flipud_fliplr m : flipud (fliplr m) = fliplr (flipud m).
Proof. unfold flipud, fliplr. by rewrite fmap_reverse. Qed.

Lemma reshape_Some h w (v : list A) :
  length v = h * w → reshape h w v = Some (rows_of h w v).
Proof. intros Hv. unfold reshape. by rewrite decide_True. Qed.

Lemma equi_step_variants h w t i :
  length (prob_of t) = h * w → equi_step h w t i = Some (variants h w t i).
Proof.
  destruct t as [[s p] z]. unfold prob_of. simpl. intros Hp.
  rewrite reshape_Some by done. simpl.
  unfold variants, rotated_board, rotated_state, prob_of, state_of, winner_of.
  simpl. by rewrite flipud_fliplr.
Qed.

Lemma equi_steps_variants h w t :
  length (prob_of t) = h * w →
  @concat (triple A) <$> mapM (equi_step h w t) [1; 2; 3; 4]
  = Some ([1; 2; 3; 4] ≫= variants h w t).
Proof. intros Ht. simpl. by rewrite !equi_step_variants. Qed.

Lemma variants_length h w t k : length (variants h w t k) = 2.
Proof. done. Qed.

Lemma variants_winner h w t k :
  winner_of <$> variants h w t k = [winner_of t; winner_of t].
Proof. done. Qed.

Lemma rows_of_shape h w (v : list A) :
  length v = h * w → has_shape h w (rows_of h w v).
Proof.
  revert v. induction h as [|h IH]; intros v Hv; simpl.
  - by split.
  - destruct (IH (drop w v)) as [IHl IHall]; [rewrite length_drop; lia|].
    split; simpl; [by rewrite IHl|].
    constructor; [|done]. rewrite length_take. lia.
Qed.

Lemma flatten_rows_of h w (v : list A) :
  length v = h * w → flatten (rows_of h w v) = v.
Proof.
  unfold flatten. revert v. induction h as [|h IH]; intros v Hv; simpl.
  - by destruct v.
  - rewrite IH by (rewrite length_drop; lia). apply take_drop.
Qed.

(** The first variant for [k = 4] is the triple itself. *)
Lemma variants_4_original h w t :
  length (prob_of t) = h * w → variants h w t 4 !! 0 = Some t.
Proof.
  intros Ht. destruct t as [[s p] z]. simpl. do 3 f_equal.
  - unfold rotated_state. simpl. by rewrite list_fmap_id.
  - unfold rotated_board, flipud. simpl in *.
    change (rot90 ?m 4) with m. rewrite reverse_involutive.
    by apply flatten_rows_of.
Qed.

Lemma get_equi_data_variants (H W : nat) (play_data : list (triple A)) :
  Forall (λ t, length (prob_of t) = H * W) play_data →
  get_equi_data H W play_data = Some (augmented H W play_data)
  ∧ length (augmented H W play_data) = 8 * length play_data
  ∧ winner_of <$> augmented H W play_data
    = (t ← play_data; replicate 8 (winner_of t)).
Proof.
  intros Hall. unfold get_equi_data, augmented.
  induction Hall as [|t ts Ht Hts IH]; [done|].
  destruct IH as (IH1 & IH2 & IH3).
  rewrite !bind_cons, fmap_app, length_app, IH2, IH3.
  split_and!; [|simpl; lia|done].
  change (mapM ?f (t :: ts)) with (y ← f t; k ← mapM f ts; mret (y :: k)).
  cbv beta. rewrite equi_steps_variants by done.
  destruct (mapM _ ts) as [out|]; [|done].
  apply (inj Some) in IH1.
  change (Some (([1; 2; 3; 4] ≫= variants H W t) ++ concat out) = Some
    (([1; 2; 3; 4] ≫= variants H W t)
     ++ ts ≫= λ t0, [1; 2; 3; 4] ≫= λ k : nat, variants H W t0 k)).
  by rewrite IH1.
Qed.

(** C1. On a game record whose probability vectors have [H * W]
    entries, [get_equi_data] returns, for every triple in turn and every
    [k] in 1, 2, 3, 4 in turn, the pair rotated by [k] (the state
    channel by channel; the probability board flipped vertically,
    rotated, flipped vertically again and flattened) followed by its
    horizontal mirror image; that is 8 triples per input triple, each
    with the outcome of the triple it comes from.  The rotation by
    [k + 1] is the rotation by [k] followed by a quarter turn
    counterclockwise, which makes the last column the first row. *)
Theorem get_equi_data_augmented (H W : nat) (play_data : list (triple A)) :
  Forall (λ t, length (prob_of t) = H * W) play_data →
  get_equi_data H W play_data = Some (augmented H W play_data)
  ∧ length (augmented H W play_data) = 8 * length play_data
  ∧ winner_of <$> augmented H W play_data
    = (t ← play_data; replicate 8 (winner_of t))
  ∧ (∀ h w (m : matrix A) k,
       has_shape h w m → 0 < h → 0 < w →
       rot90 m (S k) = rot90 (rot90 m k) 1
       ∧ has_shape w h (rot90 m 1)
       ∧ ∀ i j, i < w → j < h →
           entry (rot90 m 1) i j = entry m j (w - 1 - i)).
Proof.
  intros Hall.
  destruct (get_equi_data_variants H W play_data Hall) as (H1 & H2 & H3).
  split; [done|]. split; [done|]. split; [done|].
  intros h w m k Hm Hh Hw. split; [|split].
  - by apply (rot90_S h w).
  - by apply rot90_1_shape.
  - intros i j Hi Hj. by apply (rot90_1_entry h w).
Qed.
End AugmentFacts.

Lemma get_equi_data_augmented_witness :
  Forall (λ t, length (Augment.prob_of t) = 2 * 3)
         [([[[1; 2; 3]; [4; 5; 6]]], [1; 2; 3; 4; 5; 6], 7)]
  ∧ Augment.get_equi_data 2 3 [([[[1; 2; 3]; [4; 5; 6]]], [1; 2; 3; 4; 5; 6], 7)]
    = Some
        [([[[3; 6]; [2; 5]; [1; 4]]], [4; 1; 5; 2; 6; 3], 7);
         ([[[6; 3]; [5; 2]; [4; 1]]], [1; 4; 2; 5; 3; 6], 7);
         ([[[6; 5; 4]; [3; 2; 1]]], [6; 5; 4; 3; 2; 1], 7);
         ([[[4; 5; 6]; [1; 2; 3]]], [4; 5; 6; 1; 2; 3], 7);
         ([[[4; 1]; [5; 2]; [6; 3]]], [3; 6; 2; 5; 1; 4], 7);
         ([[[1; 4]; [2; 5]; [3; 6]]], [6; 3; 5; 2; 4; 1], 7);
         ([[[1; 2; 3]; [4; 5; 6]]], [1; 2; 3; 4; 5; 6], 7);
         ([[[3; 2; 1]; [6; 5; 4]]], [3; 2; 1; 6; 5; 4], 7)].
Proof.
  assert (Forall (λ t : Augment.triple nat, length (Augment.prob_of t) = 2 * 3)
                 [([[[1; 2; 3]; [4; 5; 6]]], [1; 2; 3; 4; 5; 6], 7)]) as Hlen
    by (repeat constructor).
  split; [exact Hlen|].
  destruct (get_equi_data_augmented 2 3 _ Hlen) as (Heq & _).
  rewrite Heq. reflexivity.
Defined.

(** ** The pipeline *)

Section PipelineFacts.
Import Pipeline.
Context `{Collaborators}.
Implicit Types (s self : TrainPipeline) (R : relation TrainPipeline).

Lemma Qlt_bool_iff (x y : Q) : Qlt_bool x y = true ↔ (x < y)%Q.
Proof.
  unfold Qlt_bool. rewrite negb_true_iff, <-not_true_iff_false, Qle_bool_iff.
  split; [apply Qnot_le_lt | apply Qlt_not_le].
Qed.

Lemma Qlt_bool_false (x y : Q) : Qlt_bool x y = false ↔ ¬ (x < y)%Q.
Proof. rewrite <-Qlt_bool_iff. by destruct (Qlt_bool x y). Qed.

(** *** Relations kept by every step of a method *)

Global Instance logged_preorder P : PreOrder (logged P).
Proof.
  split.
  - intros s. by exists [].
  - intros s1 s2 s3 (n1 & E1 & F1) (n2 & E2 & F2). exists (n2 ++ n1).
    rewrite E2, E1, app_assoc. split; [done|]. by apply Forall_app.
Qed.

Global Instance kept_preorder : PreOrder kept.
Proof.
  split.
  - by intros s.
  - intros s1 s2 s3 (?&?&?&?&?) (?&?&?&?&?). unfold kept.
    split_and!; congruence.
Qed.

Global Instance logged_frame P : Frame P (logged P).
Proof.
  split; intros; try (by exists []).
  exists [c]. split; [done|]. by constructor.
Qed.

Global Instance logged_buffer_frame P : BufferFrame (logged P).
Proof. intros s d. by exists []. Qed.

Global Instance kept_frame : Frame (λ _, True) kept.
Proof. by split. Qed.

Global Instance kept_buffer_frame : BufferFrame kept.
Proof. by intros s d. Qed.

Section Steps.
Context (R : relation TrainPipeline) `{!PreOrder R}.

Lemma steps_ret {A} (a : A) : steps R (mret a).
Proof. intros s. simpl. reflexivity. Qed.

Lemma steps_raise {A} e : steps R (raise (A:=A) e).
Proof. intros s. simpl. reflexivity. Qed.

Lemma steps_get : steps R get.
Proof. intros s. simpl. reflexivity. Qed.

Lemma steps_modify f : (∀ s, R s (f s)) → steps R (modify f).
Proof. intros Hf s. apply Hf. Qed.

Lemma steps_bind {A B} (m : M A) (k : A → M B) :
  steps R m → (∀ a, steps R (k a)) → steps R (m ≫= k).
Proof.
  intros Hm Hk s. specialize (Hm s).
  unfold mbind, M_bind, bind. destruct (m s) as [[a|e] s']; simpl in *.
  - etrans; [exact Hm | apply Hk].
  - done.
Qed.

Lemma steps_for_each {A} (xs : list A) (body : A → M unit) :
  (∀ x, steps R (body x)) → steps R (for_each xs body).
Proof.
  intros Hbody. induction xs as [|x xs IH]; simpl.
  - apply steps_ret.
  - apply steps_bind; auto.
Qed.
End Steps.

(** Decompose a method into its steps. *)
Ltac step_method :=
  repeat match goal with
    | |- PreOrder _ => exact _
    | |- Frame _ _ => exact _
    | |- BufferFrame _ => exact _
    | |- ∀ _, _ => intro
    | |- steps _ (mret _) => apply steps_ret
    | |- steps _ (raise _) => apply steps_raise
    | |- steps _ get => apply steps_get
    | |- steps _ (modify _) => apply steps_modify
    | |- steps _ (_ ≫= _) => apply steps_bind
    | |- steps _ (for_each _ _) => apply steps_for_each
    | |- steps _ (match ?x with _ => _ end) => destruct x
    end.

Section Framed.
Context (P : call → Prop) (R : relation TrainPipeline).
Context `{!PreOrder R, !Frame P R}.

Lemma frame_call_env s c w : P c → R s (set_env w (record_call c s)).
Proof. intros. etrans; [by apply frame_call | apply frame_env]. Qed.

Lemma steps_collect `{!BufferFrame R} n i :
  (∀ f, P (StartSelfPlay f)) → steps R (collect_selfplay_data n i).
Proof.
  intros HP. unfold collect_selfplay_data, self_play_once.
  step_method; try done; try apply frame_extend.
  etrans; [by apply frame_call_env | apply frame_episode_len].
Qed.

Lemma steps_epoch_loop n sb pb wb old lr locals :
  (∀ lr, P (TrainStep lr)) → steps R (epoch_loop n sb pb wb old lr locals).
Proof.
  intros HP. revert locals. induction n as [|n IH]; intros locals; simpl.
  - by apply steps_ret.
  - step_method; try done.
    etrans; [by apply frame_call | apply frame_net].
Qed.

Lemma steps_policy_update :
  P EnterPolicyUpdate → (∀ k, P (RandomSample k)) → (∀ lr, P (TrainStep lr)) →
  (∀ s kl, R s (set_lr_multiplier
                  (adapt_lr_multiplier (kl_targ (conf s)) kl (lr_multiplier s))
                  s)) →
  steps R policy_update.
Proof.
  intros HP1 HP2 HP3 Hlr. unfold policy_update, sample_buffer.
  step_method; try done;
    try (by apply frame_call); try apply frame_env; try apply Hlr.
  by apply steps_epoch_loop.
Qed.

Lemma steps_play_games games : ∀ win_cnt,
  (∀ i p, P (StartPlay i p)) → steps R (play_games games win_cnt).
Proof.
  induction games as [|i games IH]; intros win_cnt HP; simpl.
  - by apply steps_ret.
  - step_method; [|by apply IH]. by apply frame_call_env.
Qed.

Lemma steps_policy_evaluate n :
  (∀ i p, P (StartPlay i p)) → steps R (policy_evaluate n).
Proof.
  intros HP. unfold policy_evaluate. step_method; try done.
  by apply steps_play_games.
Qed.

Lemma steps_check_and_save i :
  P SaveCurrentModel → (∀ i p, P (StartPlay i p)) →
  (∀ r, steps R (record_evaluation i r)) →
  steps R (check_and_save i).
Proof.
  intros HP1 HP2 Hrec. unfold check_and_save. step_method; try done.
  - by apply frame_call.
  - by apply steps_policy_evaluate.
Qed.
End Framed.

(** *** The epoch loop *)

Lemma net_after_S self k :
  net_after self (S k) = (train_on_batch self (net_after self k)).2.
Proof. done. Qed.

Lemma epoch_loop_run self n : ∀ k s locals,
  conf s = conf self → policy_value_net s = net_after self k →
  ∃ j, k ≤ j ≤ k + n ∧ (0 < n → k < j)
    ∧ (∀ i, k < i < j → ¬ exceeds self i)
    ∧ (j < k + n → exceeds self j)
    ∧ epoch_loop n (state_batch_of self) (mcts_probs_batch_of self)
                 (winner_batch_of self) (old_probs_of self)
                 (learn_rate_of self) locals s
      = (Ok (if decide (j = k) then locals else Some (locals_after self j)),
         {| conf := conf s; lr_multiplier := lr_multiplier s;
            data_buffer := data_buffer s;
            best_win_ratio := best_win_ratio s;
            pure_mcts_playout_num := pure_mcts_playout_num s;
            training_data := training_data s;
            episode_len := episode_len s;
            policy_value_net := net_after self j; env := env s;
            calls := replicate (j - k) (TrainStep (learn_rate_of self))
                     ++ calls s |}).
Proof.
  induction n as [|n IH]; intros k s locals Hconf Hnet.
  - exists k. split_and!; try lia.
    rewrite decide_True, Nat.sub_diag by done. simpl.
    destruct s; simpl in *; by subst.
  - simpl. unfold mbind, M_bind, bind, get, modify. simpl.
    rewrite Hnet.
    destruct (train_step _ _ _ _ _) as [[l e] net'] eqn:Hstep.
    assert (net' = net_after self (S k)) as ->.
    { rewrite net_after_S. unfold train_on_batch. by rewrite Hstep. }
    destruct (policy_value (net_after self (S k)) _) as [new_probs v] eqn:Hpv.
    assert (kl_divergence (old_probs_of self) new_probs = kl_after self (S k))
      as Hkl by (unfold kl_after; by rewrite Hpv).
    assert ({| loss := l; entropy := e; new_v := v;
               kl := kl_divergence (old_probs_of self) new_probs |}
            = locals_after self (S k)) as Hloc.
    { unfold locals_after. change (pred (S k)) with k.
      unfold train_on_batch. by rewrite Hstep, Hpv, Hkl. }
    rewrite Hloc, Hkl.
    destruct (Qlt_bool _ _) eqn:Hcmp.
    + apply Qlt_bool_iff in Hcmp. rewrite Hconf in Hcmp. exists (S k).
      split_and!; try lia; [by intros _|].
      rewrite decide_False by lia. simpl.
      replace (S k - k) with 1 by lia. done.
    + apply Qlt_bool_false in Hcmp. rewrite Hconf in Hcmp.
      edestruct (IH (S k)) as (j & Hj & _ & Hbefore & Hstop & ->);
        [| |exists j]; [done..|].
      split_and!; try lia.
      * intros i Hi. destruct (decide (i = S k)) as [->|]; [done|].
        apply Hbefore. lia.
      * intros. apply Hstop. lia.
      * rewrite (decide_False (P:=j = k)) by lia. f_equal.
        { by destruct (decide (j = S k)) as [->|]. }
        simpl. f_equal.
        replace (j - k) with (S (j - S k)) by lia. simpl.
        change (?c :: ?l) with ([c] ++ l) at 1.
        rewrite app_assoc. f_equal.
        clear. induction (j - S k); simpl; by f_equal.
Qed.

(** *** [policy_update] *)

Ltac run_method :=
  unfold mbind, M_bind, bind, mret, M_ret, ret, raise, get, modify; simpl.

Lemma policy_update_small_buffer self :
  ¬ batch_size (conf self) ≤ length (data_buffer self) →
  (policy_update self).1 = Raise ValueError.
Proof.
  intros Hlen. unfold policy_update, sample_buffer. run_method.
  by rewrite decide_False.
Qed.

Lemma policy_update_enters self :
  ∃ new, calls (policy_update self).2 = new ++ EnterPolicyUpdate :: calls self.
Proof.
  unfold policy_update.
  match goal with |- context [ modify _ ≫= ?k ] => set (rest := k) end.
  assert (steps (logged (λ _, True)) (rest ())) as Hrest.
  { subst rest. unfold sample_buffer.
    step_method; try done; try (by apply frame_call); try apply frame_env.
    - by apply (steps_epoch_loop (λ _, True)); step_method.
    - by exists []. }
  destruct (Hrest (record_call EnterPolicyUpdate self)) as (new & Hnew & _).
  exists new. exact Hnew.
Qed.

Lemma policy_update_run self :
  batch_size (conf self) ≤ length (data_buffer self) →
  (epochs (conf self) = 0 → (policy_update self).1 = Raise UnboundLocalError)
  ∧ (1 ≤ epochs (conf self) →
     ∃ j, last_epoch self j
       ∧ policy_update self
         = (Ok (loss (locals_after self j), entropy (locals_after self j)),
            policy_updated self j)).
Proof.
  intros Hlen. unfold policy_update, sample_buffer. run_method.
  rewrite decide_True by done.
  destruct (random_sample _ _ _) as [mb w] eqn:Hsample.
  assert (mb = mini_batch_of self) as ->
    by (unfold mini_batch_of; by rewrite Hsample).
  assert (w = (random_sample (env self) (data_buffer self)
                             (batch_size (conf self))).2) as ->
    by (by rewrite Hsample).
  simpl.
  change (Augment.state_of <$> mini_batch_of self) with (state_batch_of self).
  change (Augment.prob_of <$> mini_batch_of self)
    with (mcts_probs_batch_of self).
  change (Augment.winner_of <$> mini_batch_of self)
    with (winner_batch_of self).
  destruct (policy_value _ _) as [old_probs old_v] eqn:Hold.
  assert (old_probs = old_probs_of self) as ->
    by (unfold old_probs_of; by rewrite Hold).
  change (learn_rate (conf self) * lr_multiplier self)%Q
    with (learn_rate_of self).
  match goal with
  | |- context [epoch_loop _ _ _ _ _ _ _ ?s] =>
      destruct (epoch_loop_run self (epochs (conf self)) 0 s None)
        as (j & Hj & Hpos & Hbefore & Hstop & Hrun); [done..|]
  end.
  rewrite Hrun. clear Hrun. split.
  - intros HE. rewrite HE in Hj. by rewrite decide_True by lia.
  - intros HE. exists j. split.
    + split_and!; try lia.
      * intros i Hi. apply Hbefore. lia.
      * intros. apply Hstop. lia.
    + rewrite decide_False by lia. simpl. do 2 f_equal.
      unfold policy_updated. rewrite Nat.sub_0_r. done.
Qed.

(** *** [policy_evaluate] *)

Lemma count_win_lookup (cnt : gmap Z nat) (w x : Z) :
  count_win cnt w !!! x = cnt !!! x + (if decide (w = x) then 1 else 0).
Proof.
  unfold count_win. destruct (decide (w = x)) as [->|].
  - rewrite lookup_total_insert_eq. lia.
  - rewrite lookup_total_insert_ne by done. lia.
Qed.

Lemma tally_counted (ws : list Z) (x : Z) : ∀ cnt : gmap Z nat,
  foldl count_win cnt ws !!! x = cnt !!! x + tally x ws.
Proof.
  unfold tally. induction ws as [|w ws IH]; intros cnt; simpl; [lia|].
  rewrite IH, count_win_lookup, filter_cons.
  destruct (decide (w = x)); simpl; lia.
Qed.

Lemma winners_length w n p starts : length (winners w n p starts) = length starts.
Proof.
  revert w. induction starts as [|i starts IH]; intros w; simpl; [done|].
  destruct (start_play _ _ _ _). simpl. by rewrite IH.
Qed.

Lemma play_games_run games : ∀ cnt s,
  ∃ w',
    play_games games cnt s
    = (Ok (foldl count_win cnt
             (winners (env s) (policy_value_net s) (pure_mcts_playout_num s)
                      ((λ i, i mod 2) <$> games))),
       {| conf := conf s; lr_multiplier := lr_multiplier s;
          data_buffer := data_buffer s;
          best_win_ratio := best_win_ratio s;
          pure_mcts_playout_num := pure_mcts_playout_num s;
          training_data := training_data s;
          episode_len := episode_len s;
          policy_value_net := policy_value_net s; env := w';
          calls := reverse ((λ i, StartPlay (i mod 2) (pure_mcts_playout_num s))
                              <$> games)
                   ++ calls s |}).
Proof.
  induction games as [|i games IH]; intros cnt s.
  - exists (env s). simpl. by destruct s.
  - simpl. run_method.
    destruct (start_play _ _ _ _) as [winner w] eqn:Hplay. simpl.
    edestruct IH as (w' & ->). exists w'. simpl.
    rewrite reverse_cons, <-app_assoc. done.
Qed.

Lemma policy_evaluate_run n self :
  1 ≤ n →
  ∃ w',
    policy_evaluate n self
    = (Ok (win_ratio_of
             (foldl count_win ∅
                (winners (env self) (policy_value_net self)
                         (pure_mcts_playout_num self)
                         ((λ i, i mod 2) <$> seq 0 n))) n),
       {| conf := conf self; lr_multiplier := lr_multiplier self;
          data_buffer := data_buffer self;
          best_win_ratio := best_win_ratio self;
          pure_mcts_playout_num := pure_mcts_playout_num self;
          training_data := training_data self;
          episode_len := episode_len self;
          policy_value_net := policy_value_net self; env := w';
          calls := reverse ((λ i, StartPlay (i mod 2)
                                            (pure_mcts_playout_num self))
                              <$> seq 0 n)
                   ++ calls self |}).
Proof.
  intros Hn. unfold policy_evaluate.
  destruct (play_games_run (seq 0 n) ∅ self) as (w' & Hrun).
  exists w'. unfold mbind, M_bind, bind. rewrite Hrun.
  destruct n; [lia|]. done.
Qed.

(** With no game to play the division by [n_games] raises. *)
Lemma policy_evaluate_no_games self :
  (policy_evaluate 0 self).1 = Raise ZeroDivisionError.
Proof. done. Qed.

Lemma calls_since_app s s' new :
  calls s' = new ++ calls s → calls_since s s' = reverse new.
Proof.
  intros Hc. unfold calls_since. rewrite Hc, length_app.
  replace (length new + length (calls s) - length (calls s))
    with (length new) by lia.
  by rewrite take_app_length.
Qed.

(** *** The loop body *)

Lemma steps_record_evaluation P R `{!PreOrder R, !Frame P R} i r :
  P (SaveBestModel i) →
  (∀ s x, R s (set_best_win_ratio x s)) →
  (∀ s x, R s (set_pure_mcts_playout_num x s)) →
  steps R (record_evaluation i r).
Proof.
  intros HP Hbest Hnum. unfold record_evaluation.
  step_method; try done. by apply frame_call.
Qed.

Lemma cycle_unfold i self :
  cycle i self =
    match collect_selfplay_data 1 i self with
    | (Ok _, s1) =>
        if decide (batch_size (conf s1) < length (data_buffer s1)) then
          match policy_update s1 with
          | (Ok _, s2) => check_and_save i s2
          | (Raise e, s2) => (Raise e, s2)
          end
        else check_and_save i s1
    | (Raise e, s1) => (Raise e, s1)
    end.
Proof.
  unfold cycle. unfold mbind at 1 2 3. unfold M_bind, bind, get.
  destruct (collect_selfplay_data 1 i self) as [[[]|e] s1]; [|done].
  destruct (decide _); [|done].
  unfold mbind, M_bind, bind, mret, M_ret, ret.
  by destruct (policy_update s1) as [[?|?] ?].
Qed.

Lemma steps_cycle R `{!PreOrder R, !Frame (λ _, True) R, !BufferFrame R} i :
  (∀ s kl, R s (set_lr_multiplier
                  (adapt_lr_multiplier (kl_targ (conf s)) kl (lr_multiplier s))
                  s)) →
  (∀ r, steps R (record_evaluation i r)) →
  steps R (cycle i).
Proof.
  intros Hlr Hrec. unfold cycle. step_method; try done.
  - by apply (steps_collect (λ _, True)); step_method.
  - by apply (steps_policy_update (λ _, True)); step_method.
  - by apply (steps_check_and_save (λ _, True)); step_method.
Qed.

Lemma steps_run R `{!PreOrder R, !Frame (λ _, True) R, !BufferFrame R} :
  (∀ s kl, R s (set_lr_multiplier
                  (adapt_lr_multiplier (kl_targ (conf s)) kl (lr_multiplier s))
                  s)) →
  (∀ i r, steps R (record_evaluation i r)) →
  steps R run.
Proof.
  intros Hlr Hrec. unfold run. step_method; try done.
  by apply steps_cycle.
Qed.

(** *** Relations between the state before and after *)

Global Instance same_evaluation_preorder : PreOrder same_evaluation.
Proof.
  split; [by intros s|].
  intros s1 s2 s3 [??] [??]. split; congruence.
Qed.

Global Instance same_evaluation_frame : Frame (λ _, True) same_evaluation.
Proof. by split. Qed.

Global Instance same_evaluation_buffer_frame : BufferFrame same_evaluation.
Proof. by intros s d. Qed.

Global Instance at_ceiling_preorder : PreOrder at_ceiling.
Proof.
  split.
  - intros s _. split; [done|apply Qle_refl].
  - intros s1 s2 s3 H12 H23 Hc. destruct (H12 Hc) as [E1 L1].
    destruct H23 as [E2 L2]; [lia|]. split; [congruence|].
    by eapply Qle_trans.
Qed.

Global Instance at_ceiling_frame : Frame (λ _, True) at_ceiling.
Proof. split; intros; intros ?; (split; [done|apply Qle_refl]). Qed.

Global Instance at_ceiling_buffer_frame : BufferFrame at_ceiling.
Proof. intros s d ?. split; [done|apply Qle_refl]. Qed.

Global Instance stays_in_range_preorder : PreOrder stays_in_range.
Proof. split; unfold stays_in_range; [by intros s|]. intros s1 s2 s3; auto. Qed.

Global Instance stays_in_range_frame : Frame (λ _, True) stays_in_range.
Proof. split; intros; intros ?; assumption. Qed.

Global Instance stays_in_range_buffer_frame : BufferFrame stays_in_range.
Proof. intros s d ?. assumption. Qed.

Global Instance buffer_bounded_preorder : PreOrder buffer_bounded.
Proof.
  split; [by intros s|].
  intros s1 s2 s3 [E1 L1] [E2 L2]. split; [congruence|].
  intros Hlen. rewrite E1 in L2. auto.
Qed.

Global Instance buffer_bounded_frame : Frame (λ _, True) buffer_bounded.
Proof. by split. Qed.

Global Instance buffer_bounded_buffer_frame : BufferFrame buffer_bounded.
Proof.
  intros s d. split; [done|]. simpl. intros Hlen. by apply extend_length.
Qed.

(** *** The adjustment of the multiplier *)

Lemma Qdiv_1_5 (m : Q) : (m / 1.5 == (2 # 3) * m)%Q.
Proof. field. Qed.

Lemma Qhalf (t : Q) : (t / 2 == 0.5 * t)%Q.
Proof. field. Qed.

Lemma adapt_lr_multiplier_cases targ kl m :
  let m' := adapt_lr_multiplier targ kl m in
  ((2 * targ < kl)%Q ∧ (0.05 < m)%Q → m' = (m / 1.5)%Q)
  ∧ (¬ ((2 * targ < kl)%Q ∧ (0.05 < m)%Q) →
     (kl < 0.5 * targ)%Q ∧ (m < 20)%Q → m' = (m * 1.5)%Q)
  ∧ (¬ ((2 * targ < kl)%Q ∧ (0.05 < m)%Q) →
     ¬ ((kl < 0.5 * targ)%Q ∧ (m < 20)%Q) → m' = m).
Proof.
  unfold adapt_lr_multiplier.
  assert (Qlt_bool (targ * 2) kl && Qlt_bool 0.05 m = true
          ↔ (2 * targ < kl)%Q ∧ (0.05 < m)%Q) as H1.
  { rewrite andb_true_iff, !Qlt_bool_iff.
    by rewrite (Qmult_comm targ 2). }
  assert (Qlt_bool kl (targ / 2) && Qlt_bool m 20 = true
          ↔ (kl < 0.5 * targ)%Q ∧ (m < 20)%Q) as H2.
  { rewrite andb_true_iff, !Qlt_bool_iff. by rewrite Qhalf. }
  destruct (Qlt_bool (targ * 2) kl && Qlt_bool 0.05 m).
  { assert ((2 * targ < kl)%Q ∧ (0.05 < m)%Q) by by apply H1.
    by split_and!. }
  assert (¬ ((2 * targ < kl)%Q ∧ (0.05 < m)%Q)) as N1
    by (intros HP; by apply H1 in HP).
  destruct (Qlt_bool kl (targ / 2) && Qlt_bool m 20).
  { assert ((kl < 0.5 * targ)%Q ∧ (m < 20)%Q) by by apply H2.
    by split_and!. }
  assert (¬ ((kl < 0.5 * targ)%Q ∧ (m < 20)%Q)) as N2
    by (intros HP; by apply H2 in HP).
  by split_and!.
Qed.

(** *** The measured KL is the mean the specification describes *)

Lemma np_sum_indexed (l : list Q) (g : nat → Q) : ∀ k,
  (∀ i x, l !! i = Some x → g (k + i) = x) →
  np_sum l = sum_from k (length l) g.
Proof.
  induction l as [|x l IH]; intros k Hg; [done|].
  unfold sum_from. simpl. f_equal.
  - symmetry. rewrite <- (Nat.add_0_r k). by apply Hg.
  - apply IH. intros i y Hy.
    replace (S k + i) with (k + S i) by lia. by apply Hg.
Qed.

Lemma kl_divergence_spec (batch n_actions : nat)
    (old_probs new_probs : list (list Q)) :
  Numpy.has_shape batch n_actions old_probs →
  Numpy.has_shape batch n_actions new_probs →
  kl_divergence old_probs new_probs
  = spec_kl batch n_actions old_probs new_probs.
Proof.
  intros [Hold Holds] [Hnew Hnews].
  unfold kl_divergence, np_mean, spec_kl, mean_over_batch.
  assert (length
            (np_sum <$>
               zip_with
                 (zip_with
                    (λ p q, p * (np_log (p + 1e-10) - np_log (q + 1e-10)))%Q)
                 old_probs new_probs) = batch) as Hlen.
  { rewrite length_fmap, length_zip_with. lia. }
  rewrite Hlen. f_equal. rewrite <- Hlen.
  apply np_sum_indexed. intros b x. rewrite list_lookup_fmap.
  intros Hx. apply fmap_Some in Hx as (row & Hrow & ->).
  apply lookup_zip_with_Some in Hrow as (r & r' & -> & Hr & Hr').
  assert (length r = n_actions) as Hlr
    by (rewrite Forall_forall in Holds; eapply Holds, list_elem_of_lookup_2, Hr).
  assert (length r' = n_actions) as Hlr'
    by (rewrite Forall_forall in Hnews;
        eapply Hnews, list_elem_of_lookup_2, Hr').
  unfold sum_over_actions. symmetry.
  replace n_actions
    with (length
            (zip_with
               (λ p q, p * (np_log (p + 1e-10) - np_log (q + 1e-10)))%Q r r'))
    by (rewrite length_zip_with; lia).
  apply np_sum_indexed. intros a y Hy.
  apply lookup_zip_with_Some in Hy as (p & q & -> & Hp & Hq).
  unfold prob_at, Numpy.entry. simpl. rewrite Hr, Hr'. simpl.
  by rewrite Hp, Hq.
Qed.

Lemma mini_batch_length self :
  sample_sized → batch_size (conf self) ≤ length (data_buffer self) →
  length (state_batch_of self) = batch_size (conf self).
Proof.
  intros Hsample Hlen. unfold state_batch_of, mini_batch_of.
  rewrite length_fmap. by apply Hsample.
Qed.

Lemma kl_after_spec self (n_actions : nat) i :
  batch_size (conf self) ≤ length (data_buffer self) →
  sample_sized → policy_shaped n_actions →
  kl_after self i
  = spec_kl (batch_size (conf self)) n_actions
      (policy_value (policy_value_net self) (state_batch_of self)).1
      (policy_value (net_after self i) (state_batch_of self)).1.
Proof.
  intros Hlen Hsample Hshape. unfold kl_after, old_probs_of.
  rewrite <- (mini_batch_length self Hsample Hlen).
  apply kl_divergence_spec; apply Hshape.
Qed.

(** C5. When a policy update on a non-empty batch returns, the
    multiplier it leaves follows the three-way rule on the KL measured
    in the last epoch performed: divided by 1.5 if that KL is above
    twice the target and the multiplier above 0.05; otherwise multiplied
    by 1.5 if the KL is below half the target and the multiplier below
    20; otherwise unchanged.  That KL is the mean over the batch of the
    sums over the actions that the specification describes. *)
Theorem lr_multiplier_three_way_rule self (n_actions : nat) (l e : Q) self' :
  0 < batch_size (conf self) → sample_sized → policy_shaped n_actions →
  policy_update self = (Ok (l, e), self') →
  ∃ j, last_epoch self j
    ∧ let kl := kl_after self j in
      let targ := kl_targ (conf self) in
      let m := lr_multiplier self in
      let m' := lr_multiplier self' in
      ((2 * targ < kl)%Q ∧ (0.05 < m)%Q → m' = (m / 1.5)%Q)
      ∧ (¬ ((2 * targ < kl)%Q ∧ (0.05 < m)%Q) →
         (kl < 0.5 * targ)%Q ∧ (m < 20)%Q → m' = (m * 1.5)%Q)
      ∧ (¬ ((2 * targ < kl)%Q ∧ (0.05 < m)%Q) →
         ¬ ((kl < 0.5 * targ)%Q ∧ (m < 20)%Q) → m' = m)
      ∧ kl = spec_kl (batch_size (conf self)) n_actions
               (policy_value (policy_value_net self) (state_batch_of self)).1
               (policy_value (net_after self j) (state_batch_of self)).1.
Proof.
  intros _ Hsample Hshape Hrun.
  destruct (decide (batch_size (conf self) ≤ length (data_buffer self)))
    as [Hlen|Hlen].
  2: { apply policy_update_small_buffer in Hlen. by rewrite Hrun in Hlen. }
  destruct (policy_update_run self Hlen) as [H0 H1].
  destruct (epochs (conf self)) as [|E] eqn:HE.
  { specialize (H0 eq_refl). by rewrite Hrun in H0. }
  destruct H1 as (j & Hj & Heq); [lia|]. exists j. split; [done|].
  rewrite Hrun in Heq. injection Heq as _ _ ->.
  pose proof (adapt_lr_multiplier_cases (kl_targ (conf self)) (kl_after self j)
                (lr_multiplier self)) as (Hdiv & Hmul & Hkeep).
  split; [exact Hdiv|]. split; [exact Hmul|]. split; [exact Hkeep|].
  by apply kl_after_spec.
Qed.

(** C6. In a policy update on a buffer that holds a non-empty batch,
    the loop performs [j] training steps with [j] at most the
    configured number of epochs (and at least one if one is
    configured); no epoch before the [j]-th measures a KL above four
    times the target, and if [j] is less than the configured number the
    [j]-th does.  The KL of epoch [i] is the mean over the batch of the
    sums over the actions of
    [old * (log (old + 1e-10) - log (new + 1e-10))], where [old] is what
    the network answered before the first epoch and [new] what it
    answers after [i] training steps. *)
Theorem epoch_loop_stops_on_divergence self (n_actions : nat) :
  batch_size (conf self) ≤ length (data_buffer self) →
  0 < batch_size (conf self) → sample_sized → policy_shaped n_actions →
  let self' := (policy_update self).2 in
  ∃ j, j ≤ epochs (conf self)
    ∧ (1 ≤ epochs (conf self) → 1 ≤ j)
    ∧ calls_since self self'
      = [EnterPolicyUpdate; RandomSample (batch_size (conf self))]
        ++ replicate j (TrainStep (learn_rate_of self))
    ∧ policy_value_net self' = net_after self j
    ∧ (∀ i, 1 ≤ i < j → ¬ (kl_targ (conf self) * 4 < kl_after self i)%Q)
    ∧ (j < epochs (conf self) →
       1 ≤ j ∧ (kl_targ (conf self) * 4 < kl_after self j)%Q)
    ∧ (∀ i, kl_after self i
            = mean_over_batch (batch_size (conf self)) (λ b,
                sum_over_actions n_actions (λ a,
                  let old :=
                    prob_at (policy_value (policy_value_net self)
                                          (state_batch_of self)).1 b a in
                  let new :=
                    prob_at (policy_value (net_after self i)
                                          (state_batch_of self)).1 b a in
                  old * (np_log (old + 1e-10) - np_log (new + 1e-10))))%Q).
Proof.
  intros Hlen _ Hsample Hshape self'. subst self'.
  assert (∀ i, kl_after self i
            = mean_over_batch (batch_size (conf self)) (λ b,
                sum_over_actions n_actions (λ a,
                  let old :=
                    prob_at (policy_value (policy_value_net self)
                                          (state_batch_of self)).1 b a in
                  let new :=
                    prob_at (policy_value (net_after self i)
                                          (state_batch_of self)).1 b a in
                  old * (np_log (old + 1e-10) - np_log (new + 1e-10))))%Q)
    as Hkl.
  { intros i. by rewrite (kl_after_spec self n_actions i). }
  destruct (epochs (conf self)) as [|E] eqn:HE.
  - exists 0. split; [done|].
    unfold policy_update, sample_buffer. run_method.
    rewrite decide_True by done.
    destruct (random_sample _ _ _) as [mb w]. simpl.
    destruct (policy_value _ (Augment.state_of <$> mb)) as [old_probs old_v].
    rewrite HE. simpl. split_and!; try done; try lia; try exact Hkl.
    by erewrite (calls_since_app _ _ [_; _]).
  - destruct (policy_update_run self Hlen) as [_ H1].
    destruct H1 as (j & (Hj & Hbefore & Hstop) & Heq); [lia|].
    rewrite HE in Hj, Hstop.
    exists j. rewrite Heq. simpl. split_and!; try done; try lia; try exact Hkl.
    + erewrite calls_since_app.
      2: { simpl. rewrite (cons_middle (RandomSample _)),
             (cons_middle EnterPolicyUpdate), !app_assoc. done. }
      rewrite !reverse_app, reverse_replicate. done.
    + intros. split; [lia|]. by apply Hstop.
Qed.


(** *** The loop body, stage by stage *)

Lemma not_entered_collect i :
  steps (logged (λ c, c ≠ EnterPolicyUpdate)) (collect_selfplay_data 1 i).
Proof. by apply (steps_collect (λ c, c ≠ EnterPolicyUpdate)); step_method. Qed.

Lemma not_entered_check_and_save i :
  steps (logged (λ c, c ≠ EnterPolicyUpdate)) (check_and_save i).
Proof.
  apply (steps_check_and_save (λ c, c ≠ EnterPolicyUpdate)); step_method;
    try done.
  apply (steps_record_evaluation (λ c, c ≠ EnterPolicyUpdate));
    step_method; try done; by exists [].
Qed.

Lemma kept_collect n i : steps kept (collect_selfplay_data n i).
Proof. by apply (steps_collect (λ _, True)); step_method. Qed.

(** The buffer of the pipeline, empty at first, never holds more than
    [buffer_size] samples. *)
Lemma data_buffer_bounded self :
  length (data_buffer self) ≤ buffer_size (conf self) →
  (∀ i, length (data_buffer (cycle i self).2) ≤ buffer_size (conf self))
  ∧ length (data_buffer (run self).2) ≤ buffer_size (conf self).
Proof.
  intros Hlen.
  assert (∀ s kl,
    buffer_bounded s
      (set_lr_multiplier
         (adapt_lr_multiplier (kl_targ (conf s)) kl (lr_multiplier s)) s))
    as Hlr by done.
  assert (∀ i r, steps buffer_bounded (record_evaluation i r)) as Hrec.
  { intros i r. apply (steps_record_evaluation (λ _, True)); by step_method. }
  split.
  - intros i. by apply (steps_cycle buffer_bounded i Hlr (Hrec i) self).
  - by apply (steps_run buffer_bounded Hlr Hrec self).
Qed.

(** C7. In a pass through the loop body, [policy_update] is entered
    exactly when the collection returned and left more samples in the
    buffer than the batch size.  The pass is then [policy_update]
    followed by the saving and evaluation step, run from the state the
    collection left; when the collection left at most that many
    samples, the pass goes on with the saving and evaluation step alone
    from that state, and nothing is raised in between; and when the
    collection raised, the pass ends there. *)
Theorem policy_update_iff_buffer_exceeds_batch self i :
  let collected := collect_selfplay_data 1 i self in
  (EnterPolicyUpdate ∈ calls_since self (cycle i self).2
   ↔ collected.1 = Ok ()
     ∧ batch_size (conf self) < length (data_buffer collected.2))
  ∧ (collected.1 = Ok () →
     length (data_buffer collected.2) ≤ batch_size (conf self) →
     cycle i self = check_and_save i collected.2)
  ∧ (collected.1 = Ok () →
     batch_size (conf self) < length (data_buffer collected.2) →
     cycle i self = (policy_update;; check_and_save i) collected.2)
  ∧ (∀ e, collected.1 = Raise e → cycle i self = (Raise e, collected.2)).
Proof.
  intros collected. subst collected. rewrite cycle_unfold.
  destruct (not_entered_collect i self) as (new1 & Hnew1 & Hall1).
  destruct (kept_collect 1 i self) as (Hconf & _).
  destruct (collect_selfplay_data 1 i self) as [[[]|e] s1]; simpl in *.
  - rewrite Hconf. destruct (decide _) as [Hlt|Hle].
    + split; [|split; [lia|split; [|done]]].
      * split; [done|intros _].
        destruct (policy_update_enters s1) as (new2 & Hnew2).
        destruct (policy_update s1) as [[?|?] s2]; simpl in *.
        -- destruct (not_entered_check_and_save i s2) as (new3 & Hnew3 & _).
           rewrite (calls_since_app _ _
                      (new3 ++ new2 ++ EnterPolicyUpdate :: new1)).
           { rewrite !reverse_app, reverse_cons. set_solver. }
           rewrite Hnew3, Hnew2, Hnew1, <-!app_assoc. done.
        -- rewrite (calls_since_app _ _ (new2 ++ EnterPolicyUpdate :: new1)).
           { rewrite !reverse_app, reverse_cons. set_solver. }
           rewrite Hnew2, Hnew1, <-!app_assoc. done.
      * intros _ _. unfold mbind, M_bind, bind.
        by destruct (policy_update s1) as [[?|?] s2].
    + split; [|split; [done|split; [lia|done]]].
      split; [|intros [_ ?]; lia].
      destruct (not_entered_check_and_save i s1) as (new3 & Hnew3 & Hall3).
      rewrite (calls_since_app _ _ (new3 ++ new1))
        by (by rewrite Hnew3, Hnew1, <-!app_assoc).
      rewrite elem_of_reverse, elem_of_app.
      rewrite Forall_forall in Hall1, Hall3.
      intros [Hin|Hin]; [by apply Hall3 in Hin|by apply Hall1 in Hin].
  - split; [|split; [done|split; [done|]]].
    + split; [|by intros [? _]].
      rewrite (calls_since_app _ _ new1) by done.
      rewrite elem_of_reverse. rewrite Forall_forall in Hall1.
      intros Hin. by apply Hall1 in Hin.
    + by intros e' [= ->].
Qed.

(** C9. [policy_evaluate(n_games)] with at least one game plays exactly
    [n_games] games, game [i] started by player [i mod 2], and returns
    the number of games the learner won plus half the number of ties,
    divided by [n_games]. *)
Theorem policy_evaluate_win_ratio self (n_games : nat) :
  1 ≤ n_games →
  let ws := winners (env self) (policy_value_net self)
                    (pure_mcts_playout_num self)
                    ((λ i, i mod 2) <$> seq 0 n_games) in
  ∃ win_ratio,
    (policy_evaluate n_games self).1 = Ok win_ratio
    ∧ (win_ratio
       == (inject_Z (Z.of_nat (tally 1 ws))
           + 0.5 * inject_Z (Z.of_nat (tally (-1) ws)))
          / inject_Z (Z.of_nat n_games))%Q
    ∧ calls_since self (policy_evaluate n_games self).2
      = (λ i, StartPlay (i mod 2) (pure_mcts_playout_num self))
          <$> seq 0 n_games
    ∧ length ws = n_games.
Proof.
  intros Hn ws. destruct (policy_evaluate_run n_games self Hn) as (w' & ->).
  eexists. split; [done|]. split_and!.
  - unfold win_ratio_of. rewrite !tally_counted, !lookup_total_empty.
    fold ws. simpl. unfold Qdiv. ring.
  - simpl. erewrite calls_since_app by done. by rewrite reverse_involutive.
  - unfold ws. by rewrite winners_length, length_fmap, length_seq.
Qed.

Lemma check_and_save_stages R `{!PreOrder R, !Frame (λ _, True) R} i s :
  ∃ s3, R s s3
    ∧ ((check_and_save i s).2 = s3
       ∨ ∃ r, (check_and_save i s).2 = (record_evaluation i r s3).2).
Proof.
  remember (check_and_save i s).2 as final eqn:Hfinal.
  unfold check_and_save in Hfinal.
  set (save := if decide ((i + 1) mod 50 = 0)
               then modify (record_call SaveCurrentModel) else mret ())
    in Hfinal.
  assert (steps R save) as Hsave.
  { subst save. step_method. by apply frame_call. }
  specialize (Hsave s). unfold mbind, M_bind, bind, get in Hfinal.
  destruct (save s) as [[[]|e] s1]; simpl in Hsave, Hfinal;
    [|exists s1; split; [exact Hsave|left; exact Hfinal]].
  destruct (check_freq (conf s1)) as [|f];
    [exists s1; split; [exact Hsave|left; exact Hfinal]|].
  destruct (decide ((i + 1) mod S f = 0));
    [|exists s1; split; [exact Hsave|left; exact Hfinal]].
  destruct (policy_evaluate_run 10 s1) as (w' & Hev); [lia|].
  pose proof (steps_policy_evaluate (λ _, True) R 10 (λ _ _, I) s1) as Hev'.
  rewrite Hev in Hev', Hfinal. simpl in Hev'.
  eexists. split; [by etrans|]. right. by eexists.
Qed.

Lemma cycle_stages R `{!PreOrder R, !Frame (λ _, True) R, !BufferFrame R}
    i self :
  (∀ s kl, R s (set_lr_multiplier
                  (adapt_lr_multiplier (kl_targ (conf s)) kl (lr_multiplier s))
                  s)) →
  ∃ s2, R self s2
    ∧ ((cycle i self).2 = s2 ∨ (cycle i self).2 = (check_and_save i s2).2).
Proof.
  intros Hlr. rewrite cycle_unfold.
  pose proof (steps_collect (λ _, True) R 1 i (λ _, I) self) as H1.
  destruct (collect_selfplay_data 1 i self) as [[[]|e] s1]; simpl in H1;
    [|by eauto].
  destruct (decide _); [|by eauto].
  pose proof (steps_policy_update (λ _, True) R I (λ _, I) (λ _, I) Hlr s1)
    as H2.
  destruct (policy_update s1) as [[?|?] s2]; simpl in H2.
  - exists s2. split; [by etrans|by right].
  - exists s2. split; [by etrans|by left].
Qed.

Lemma record_evaluation_cases i r s :
  let s' := (record_evaluation i r s).2 in
  (pure_mcts_playout_num s' = pure_mcts_playout_num s
   ∧ (¬ (best_win_ratio s < r)%Q ∧ best_win_ratio s' = best_win_ratio s
      ∨ (best_win_ratio s < r)%Q ∧ best_win_ratio s' = r))
  ∨ ((pure_mcts_playout_num s < 8000)%Z
     ∧ (0.98 <= r)%Q ∧ (best_win_ratio s < r)%Q
     ∧ pure_mcts_playout_num s' = (pure_mcts_playout_num s + 1000)%Z
     ∧ best_win_ratio s' = 0.0%Q).
Proof.
  unfold record_evaluation. run_method.
  destruct (Qlt_bool (best_win_ratio s) r) eqn:Hlt; simpl.
  2: { apply Qlt_bool_false in Hlt. by eauto. }
  apply Qlt_bool_iff in Hlt.
  destruct (Qle_bool 0.98 r) eqn:Hle; simpl; [|by eauto].
  apply Qle_bool_iff in Hle.
  destruct (bool_decide _) eqn:Hnum; simpl; [|by eauto].
  apply bool_decide_eq_true in Hnum. right. done.
Qed.

Lemma record_evaluation_returns i r s : (record_evaluation i r s).1 = Ok ().
Proof.
  unfold record_evaluation. run_method.
  destruct (Qlt_bool _ _); simpl; [|done].
  by destruct (_ && _).
Qed.

Lemma at_ceiling_record_evaluation i r : steps at_ceiling (record_evaluation i r).
Proof.
  intros s Hc.
  destruct (record_evaluation_cases i r s) as [[-> Hbest]|[? _]]; [|lia].
  split; [done|]. destruct Hbest as [[_ ->]|[? ->]];
    [apply Qle_refl|by apply Qlt_le_weak].
Qed.

Lemma adapt_in_range targ kl m :
  lr_in_range m → lr_in_range (adapt_lr_multiplier targ kl m).
Proof.
  unfold lr_in_range, adapt_lr_multiplier. intros [Hlo Hhi].
  rewrite !Qdiv_1_5 in *.
  destruct (Qlt_bool (targ * 2) kl && Qlt_bool 0.05 m) eqn:E1.
  { apply andb_true_iff in E1 as [_ E1]. apply Qlt_bool_iff in E1.
    rewrite Qdiv_1_5. split; lra. }
  destruct (Qlt_bool kl (targ / 2) && Qlt_bool m 20) eqn:E2.
  { apply andb_true_iff in E2 as [_ E2]. apply Qlt_bool_iff in E2.
    split; lra. }
  done.
Qed.

Lemma adapted_in_range targ kls : ∀ m,
  lr_in_range m → lr_in_range (adapted targ m kls).
Proof.
  unfold adapted. induction kls as [|kl kls IH]; intros m Hm; simpl; [done|].
  by apply IH, adapt_in_range.
Qed.

(** C3, as the code has it. A new pipeline has a best win ratio of 0.0,
    and a pass through the loop body either leaves the baseline
    strength as it is and does not lower the best win ratio, or raises
    a baseline strength below 8000 by 1000 and resets the best win ratio
    to 0.0. *)
Theorem best_win_ratio_monotone_unless_escalated self i :
  (∀ c files n w, best_win_ratio (init c files n w) = 0.0%Q)
  ∧ (let self' := (cycle i self).2 in
     (pure_mcts_playout_num self' = pure_mcts_playout_num self
      ∧ (best_win_ratio self <= best_win_ratio self')%Q)
     ∨ ((pure_mcts_playout_num self < 8000)%Z
        ∧ pure_mcts_playout_num self' = (pure_mcts_playout_num self + 1000)%Z
        ∧ best_win_ratio self' = 0.0%Q)).
Proof.
  split; [done|]. simpl.
  destruct (cycle_stages same_evaluation i self) as (s2 & [E2 N2] & Hs2);
    [done|].
  destruct (check_and_save_stages same_evaluation i s2)
    as (s3 & [E3 N3] & Hs3).
  assert (∀ s, same_evaluation self s →
               pure_mcts_playout_num s = pure_mcts_playout_num self
               ∧ (best_win_ratio self <= best_win_ratio s)%Q) as Hsame.
  { intros s [-> ->]. split; [done|apply Qle_refl]. }
  destruct Hs2 as [-> | ->]; [left; by apply Hsame|].
  destruct Hs3 as [-> | [r ->]].
  { left. apply Hsame. by split; congruence. }
  destruct (record_evaluation_cases i r s3)
    as [[Hnum Hbest]|(Hnum & _ & _ & Hnum' & Hbest)].
  - left. split; [congruence|]. rewrite <-E2, <-E3.
    destruct Hbest as [[_ ->]|[? ->]]; [apply Qle_refl|by apply Qlt_le_weak].
  - right. split_and!; [congruence|congruence|done].
Qed.

(** C4, as the code has it. The multiplier of a new pipeline is the
    configured one, and a multiplier strictly between 0.05 / 1.5 and
    20 * 1.5 stays strictly between them: after any run of adjustments,
    whatever the KL values measured, after a policy update, and after
    the whole run of the pipeline. *)
Theorem lr_multiplier_stays_in_range self :
  lr_in_range (lr_multiplier self) →
  (∀ files n w,
     lr_multiplier (init (conf self) files n w) = conf_lr_multiplier (conf self))
  ∧ (∀ kls, lr_in_range (adapted (kl_targ (conf self)) (lr_multiplier self) kls))
  ∧ lr_in_range (lr_multiplier (policy_update self).2)
  ∧ lr_in_range (lr_multiplier (run self).2).
Proof.
  intros Hin.
  assert (∀ s kl,
    stays_in_range s
      (set_lr_multiplier
         (adapt_lr_multiplier (kl_targ (conf s)) kl (lr_multiplier s)) s))
    as Hlr by (intros s kl ?; by apply adapt_in_range).
  split_and!; [done|..].
  - intros kls. by apply adapted_in_range.
  - by apply (steps_policy_update (λ _, True) stays_in_range I (λ _, I)
                (λ _, I) Hlr self).
  - apply (steps_run stays_in_range Hlr); [|done].
    intros i r. apply (steps_record_evaluation (λ _, True)); step_method;
      try done; by intros ?.
Qed.

(** C8. With the baseline strength at 8000 or more and a best win
    ratio of at least 0.98, an evaluation whose win ratio exceeds the
    best returns, leaves the baseline strength as it is and makes that
    win ratio the best one; no evaluation changes the baseline
    strength; and after a pass through the loop body, and after the
    whole run, the baseline strength is the same and the best win ratio
    still at least 0.98. *)
Theorem baseline_kept_at_ceiling self i :
  (8000 ≤ pure_mcts_playout_num self)%Z →
  (0.98 <= best_win_ratio self)%Q →
  (∀ win_ratio, (best_win_ratio self < win_ratio)%Q →
     (record_evaluation i win_ratio self).1 = Ok ()
     ∧ pure_mcts_playout_num (record_evaluation i win_ratio self).2
       = pure_mcts_playout_num self
     ∧ best_win_ratio (record_evaluation i win_ratio self).2 = win_ratio)
  ∧ (∀ win_ratio,
       pure_mcts_playout_num (record_evaluation i win_ratio self).2
       = pure_mcts_playout_num self)
  ∧ (pure_mcts_playout_num (cycle i self).2 = pure_mcts_playout_num self
     ∧ (0.98 <= best_win_ratio (cycle i self).2)%Q)
  ∧ (pure_mcts_playout_num (run self).2 = pure_mcts_playout_num self
     ∧ (0.98 <= best_win_ratio (run self).2)%Q).
Proof.
  intros Hc Hbest.
  assert (∀ s kl,
    at_ceiling s
      (set_lr_multiplier
         (adapt_lr_multiplier (kl_targ (conf s)) kl (lr_multiplier s)) s))
    as Hlr by (intros s kl ?; split; [done|apply Qle_refl]).
  split; [|split; [|split]].
  - intros r Hr. split; [apply record_evaluation_returns|].
    destruct (record_evaluation_cases i r self) as [[-> Hb]|[? _]]; [|lia].
    split; [done|]. by destruct Hb as [[? _]|[_ Hb]].
  - intros r. by destruct (at_ceiling_record_evaluation i r self Hc).
  - destruct (steps_cycle at_ceiling i Hlr (at_ceiling_record_evaluation i)
                self Hc) as [-> Hle].
    split; [done|]. by eapply Qle_trans.
  - destruct (steps_run at_ceiling Hlr at_ceiling_record_evaluation self Hc)
      as [-> Hle].
    split; [done|]. by eapply Qle_trans.
Qed.
End PipelineFacts.

(** ** The pipeline on the small instance *)

Import Pipeline.

(** C3, as stated, fails: the first evaluation of this run gives a win
    ratio of 0.5, which becomes the best one; the second gives 1.0, the
    baseline is raised from 1000 to 2000 and the best win ratio is
    reset to 0.0. *)
Lemma best_win_ratio_can_drop :
  let s1 := (@cycle demo 0 (demo_init 1 2)).2 in
  let s2 := (@cycle demo 1 s1).2 in
  (@cycle demo 0 (demo_init 1 2)).1 = Ok ()
  ∧ (@cycle demo 1 s1).1 = Ok ()
  ∧ (@run demo (demo_init 1 2)).2 = s2
  ∧ best_win_ratio s1 = 0.500%Q
  ∧ best_win_ratio s2 = 0.0%Q
  ∧ ¬ (best_win_ratio s1 <= best_win_ratio s2)%Q.
Proof.
  vm_compute. split_and!; try reflexivity. intros Hle. by apply Hle.
Qed.

(** C4, as stated, fails: with a KL above twice the target in each of
    eight policy updates, the multiplier goes from 1.0 to 1.0 / 1.5 ^ 8,
    which is below 0.05; and eight adjustments on a KL of 0 take it from
    1.0 to 1.5 ^ 8, which is above 20. *)
Lemma lr_multiplier_leaves_interval :
  let s := (@run demo (demo_init 100 8)).2 in
  (@run demo (demo_init 100 8)).1 = Ok ()
  ∧ lr_multiplier (demo_init 100 8) = 1.0%Q
  ∧ (lr_multiplier s == 256 # 6561)%Q
  ∧ ¬ (0.05 < lr_multiplier s ∧ lr_multiplier s <= 20)%Q
  ∧ ¬ (adapted 0.02 1.0 (replicate 8 0%Q) <= 20)%Q.
Proof.
  vm_compute. split_and!; try reflexivity.
  - intros [Hlt _]. discriminate Hlt.
  - intros Hle. by apply Hle.
Qed.

(** The collaborators of the small instance deliver what they are
    taken to: a sample of the size asked for, and two probabilities for
    every state. *)
Lemma demo_sample_sized : @sample_sized demo.
Proof. intros w population k Hk. simpl. rewrite length_take. lia. Qed.

Lemma demo_policy_shaped : @policy_shaped demo 2.
Proof.
  intros n batch. split; simpl.
  - by rewrite length_fmap.
  - apply Forall_fmap, Forall_true. intros x. simpl. by destruct (Nat.even n).
Qed.

(** The state after the first collection of the small instance: eight
    samples in the buffer, for a batch size of four. *)
Lemma lr_multiplier_three_way_rule_witness :
  let self := (@collect_selfplay_data demo 1 0 (demo_init 1 2)).2 in
  0 < batch_size (conf self)
  ∧ @policy_update demo self = (Ok (0%Q, 0%Q), (@policy_update demo self).2)
  ∧ ∃ j, @last_epoch demo self j
      ∧ ((2 * 0.02 < @kl_after demo self j)%Q ∧ (0.05 < 1.0)%Q →
         lr_multiplier (@policy_update demo self).2 = (1.0 / 1.5)%Q).
Proof.
  intros self.
  assert (0 < batch_size (conf self)) as Hbatch by (vm_compute; lia).
  assert (@policy_update demo self = (Ok (0%Q, 0%Q), (@policy_update demo self).2))
    as Hrun by (vm_compute; reflexivity).
  split; [exact Hbatch|]. split; [exact Hrun|].
  destruct (@lr_multiplier_three_way_rule demo self 2 0%Q 0%Q _ Hbatch
              demo_sample_sized demo_policy_shaped Hrun)
    as (j & Hj & Hdiv & _).
  exists j. split; [exact Hj | exact Hdiv].
Defined.

(** With three epochs to an update, the first training step of the
    small instance swaps the policy: the KL of the first epoch is 1,
    above four times the target, and the loop ends there. *)
Lemma epoch_loop_stops_on_divergence_witness :
  let self := (@collect_selfplay_data demo 1 0 (demo_init_epochs 3)).2 in
  batch_size (conf self) ≤ length (data_buffer self)
  ∧ 0 < batch_size (conf self)
  ∧ epochs (conf self) = 3
  ∧ ∃ j, j ≤ 3
      ∧ calls_since self (@policy_update demo self).2
        = [EnterPolicyUpdate; RandomSample 4]
          ++ replicate j (TrainStep (@learn_rate_of demo self))
      ∧ (j < 3 → 1 ≤ j ∧ (0.02 * 4 < @kl_after demo self j)%Q)
      ∧ j = 1.
Proof.
  intros self.
  assert (batch_size (conf self) ≤ length (data_buffer self)) as Hlen
    by (vm_compute; lia).
  assert (0 < batch_size (conf self)) as Hbatch by (vm_compute; lia).
  split; [exact Hlen|]. split; [exact Hbatch|]. split; [reflexivity|].
  destruct (@epoch_loop_stops_on_divergence demo self 2 Hlen Hbatch
              demo_sample_sized demo_policy_shaped)
    as (j & Hj & _ & Hcalls & _ & _ & Hstop & _).
  exists j. split; [exact Hj|]. split; [exact Hcalls|]. split; [exact Hstop|].
  assert (length (calls_since self (@policy_update demo self).2) = 3) as Hthree
    by (vm_compute; reflexivity).
  rewrite Hcalls, length_app, length_replicate in Hthree. simpl in Hthree. lia.
Defined.


Lemma policy_evaluate_win_ratio_witness :
  1 ≤ 10
  ∧ ∃ win_ratio,
      (@policy_evaluate demo 10 (demo_init 1 2)).1 = Ok win_ratio
      ∧ (win_ratio == 0.5)%Q.
Proof.
  assert (1 ≤ 10) as Hn by lia.
  split; [exact Hn|].
  destruct (@policy_evaluate_win_ratio demo (demo_init 1 2) 10 Hn)
    as (r & Hr & Heq & _).
  exists r. split; [exact Hr|]. rewrite Heq. reflexivity.
Defined.

Lemma lr_multiplier_stays_in_range_witness :
  lr_in_range (lr_multiplier (demo_init 100 8))
  ∧ lr_in_range (lr_multiplier (@run demo (demo_init 100 8)).2).
Proof.
  assert (lr_in_range (lr_multiplier (demo_init 100 8))) as Hin
    by (split; reflexivity).
  split; [exact Hin|].
  exact (proj2 (proj2 (proj2
           (@lr_multiplier_stays_in_range demo (demo_init 100 8) Hin)))).
Defined.

Lemma baseline_kept_at_ceiling_witness :
  let self :=
    set_best_win_ratio 0.98 (set_pure_mcts_playout_num 8000 (demo_init 1 2)) in
  (8000 ≤ pure_mcts_playout_num self)%Z
  ∧ (0.98 <= best_win_ratio self)%Q
  ∧ pure_mcts_playout_num (@cycle demo 0 self).2 = 8000%Z
  ∧ (0.98 <= best_win_ratio (@cycle demo 0 self).2)%Q.
Proof.
  intros self.
  assert (8000 ≤ pure_mcts_playout_num self)%Z as Hc by (simpl; lia).
  assert (0.98 <= best_win_ratio self)%Q as Hb by (simpl; apply Qle_refl).
  split; [exact Hc|]. split; [exact Hb|].
  exact (proj1 (proj2 (proj2 (@baseline_kept_at_ceiling demo self 0 Hc Hb)))).
Defined.

(** * Further properties *)

(** ** The buffer, at its edges *)

Section DequeEdges.
Context {A : Type}.
Implicit Types (d xs ys : list A) (C : nat).

(** X1. On a buffer within its capacity, [extend] is plain
    concatenation as long as everything fits, keeps only the last [C]
    of the new items when there are at least [C] of them (whatever the
    buffer held), and leaves a buffer of capacity 0 empty; two [extend]
    calls in a row are one call with the concatenated items. *)
Theorem extend_at_the_edges C d xs ys :
  length d ≤ C →
  (length d + length xs ≤ C → Deque.extend C d xs = d ++ xs)
  ∧ (C ≤ length xs → Deque.extend C d xs = drop (length xs - C) xs)
  ∧ (C = 0 → Deque.extend C d xs = [])
  ∧ Deque.extend C (Deque.extend C d xs) ys = Deque.extend C d (xs ++ ys).
Proof.
  intros Hd. pose proof (extend_lastn C xs d Hd) as Hext.
  split_and!.
  - intros Hfit. rewrite Hext, length_app.
    by replace (length d + length xs - C) with 0 by lia.
  - intros Hfull. rewrite Hext, length_app, drop_app.
    rewrite drop_ge by lia. simpl. f_equal. lia.
  - intros ->. rewrite Hext, Nat.sub_0_r. by rewrite drop_all.
  - unfold Deque.extend. by rewrite foldl_app.
Qed.
End DequeEdges.

Lemma extend_at_the_edges_witness :
  length [1; 2] ≤ 3
  ∧ Deque.extend 3 [1; 2] [3] = [1; 2; 3]
  ∧ Deque.extend 3 [1; 2] [3; 4; 5; 6] = [4; 5; 6].
Proof.
  assert (length [1; 2] ≤ 3) as Hd by (simpl; lia).
  split; [exact Hd|]. split.
  - destruct (extend_at_the_edges 3 [1; 2] [3] [] Hd) as (Hfit & _).
    apply Hfit. simpl. lia.
  - destruct (extend_at_the_edges 3 [1; 2] [3; 4; 5; 6] [] Hd)
      as (_ & Hfull & _).
    apply Hfull. simpl. lia.
Defined.

(** ** The augmentation: failure, originals, inverses *)

Section AugmentMore.
Import Numpy Augment.
Context {A : Type}.
Implicit Types (m : matrix A) (t : triple A).

Lemma equi_step_None h w t i :
  equi_step h w t i = None ↔ length (prob_of t) ≠ h * w.
Proof.
  destruct t as [[s p] z]. unfold prob_of, equi_step, reshape. simpl.
  by case_decide.
Qed.

(** X2. [get_equi_data] raises (the [ValueError] of [reshape]) exactly
    when some probability vector of the record does not have
    [H * W] entries; in particular it returns the empty list on the
    empty record. *)
Theorem get_equi_data_raises_iff (H W : nat) (play_data : list (triple A)) :
  (get_equi_data H W play_data = None
   ↔ Exists (λ t, length (prob_of t) ≠ H * W) play_data)
  ∧ get_equi_data (A:=A) H W [] = Some [].
Proof.
  split; [|done]. unfold get_equi_data.
  rewrite fmap_None, mapM_None, !Exists_exists.
  split; intros (t & Hin & Ht); exists t; (split; [done|]).
  - rewrite fmap_None, mapM_None, !Exists_cons, Exists_nil in Ht.
    rewrite !equi_step_None in Ht. tauto.
  - rewrite fmap_None, mapM_None. apply Exists_cons_hd.
    by apply equi_step_None.
Qed.

Lemma get_equi_data_Some_sized (H W : nat) (play_data out : list (triple A)) :
  get_equi_data H W play_data = Some out →
  Forall (λ t, length (prob_of t) = H * W) play_data.
Proof.
  intros Hout. apply Forall_forall. intros x Hx.
  destruct (decide (length (prob_of x) = H * W)) as [|Hne]; [done|].
  assert (get_equi_data H W play_data = None) as Hnone; [|congruence].
  unfold get_equi_data. rewrite fmap_None, mapM_None.
  apply Exists_exists. exists x. split; [done|].
  rewrite fmap_None, mapM_None. apply Exists_cons_hd.
  by apply equi_step_None.
Qed.

Lemma get_equi_data_Some_length (H W : nat) (play_data out : list (triple A)) :
  get_equi_data H W play_data = Some out → length out = 8 * length play_data.
Proof.
  intros Hout.
  destruct (get_equi_data_variants H W play_data) as (Heq & Hlen & _);
    [by eapply get_equi_data_Some_sized|].
  rewrite Heq in Hout. by injection Hout as <-.
Qed.

(** X3. Every triple of a record is among the triples [get_equi_data]
    returns for it: the rotation by 4 is the identity. *)
Theorem get_equi_data_keeps_originals (H W : nat)
    (play_data out : list (triple A)) t :
  get_equi_data H W play_data = Some out → t ∈ play_data → t ∈ out.
Proof.
  intros Hout Ht.
  pose proof (get_equi_data_Some_sized H W play_data out Hout) as Hall.
  destruct (get_equi_data_variants H W play_data Hall) as (Heq & _).
  rewrite Heq in Hout. injection Hout as <-.
  unfold augmented. apply list_elem_of_bind. exists t. split; [|done].
  apply list_elem_of_bind. exists 4. split; [|set_solver].
  eapply list_elem_of_lookup_2. apply variants_4_original.
  rewrite Forall_forall in Hall. by apply Hall.
Qed.
End AugmentMore.

Lemma get_equi_data_keeps_originals_witness :
  Augment.get_equi_data 1 2 [([[[1; 2]]], [3; 4], 5)]
  = Some
    [([[[2]; [1]]], [3; 4], 5); ([[[2]; [1]]], [3; 4], 5);
     ([[[2; 1]]], [4; 3], 5); ([[[1; 2]]], [3; 4], 5);
     ([[[1]; [2]]], [4; 3], 5); ([[[1]; [2]]], [4; 3], 5);
     ([[[1; 2]]], [3; 4], 5); ([[[2; 1]]], [4; 3], 5)]
  ∧ ([[[1; 2]]], [3; 4], 5)
    ∈ [([[[2]; [1]]], [3; 4], 5); ([[[2]; [1]]], [3; 4], 5);
     ([[[2; 1]]], [4; 3], 5); ([[[1; 2]]], [3; 4], 5);
     ([[[1]; [2]]], [4; 3], 5); ([[[1]; [2]]], [4; 3], 5);
     ([[[1; 2]]], [3; 4], 5); ([[[2; 1]]], [4; 3], 5)].
Proof.
  assert (Augment.get_equi_data 1 2 [([[[1; 2]]], [3; 4], 5)]
          = Some
    [([[[2]; [1]]], [3; 4], 5); ([[[2]; [1]]], [3; 4], 5);
     ([[[2; 1]]], [4; 3], 5); ([[[1; 2]]], [3; 4], 5);
     ([[[1]; [2]]], [4; 3], 5); ([[[1]; [2]]], [4; 3], 5);
     ([[[1; 2]]], [3; 4], 5); ([[[2; 1]]], [4; 3], 5)]) as Hout
    by reflexivity.
  split; [exact Hout|].
  apply (get_equi_data_keeps_originals 1 2 _ _ _ Hout).
  apply list_elem_of_here.
Defined.

Section AugmentInverse.
Import Numpy Augment.
Context {A : Type}.
Implicit Types (m : matrix A) (t : triple A).

Lemma fliplr_involutive m : fliplr (fliplr m) = m.
Proof.
  unfold fliplr. rewrite <-list_fmap_compose.
  rewrite <-(list_fmap_id m) at 2. apply list_fmap_ext.
  intros i r _. simpl. apply reverse_involutive.
Qed.

Lemma rot90_shape h w m k :
  has_shape h w m → 0 < h → 0 < w →
  has_shape (if Nat.even k then h else w) (if Nat.even k then w else h)
            (rot90 m k).
Proof.
  intros Hm Hh Hw. induction k as [|k IH]; [done|].
  rewrite (rot90_S h w) by done. rewrite Nat.even_succ, <-Nat.negb_even.
  destruct (Nat.even k); simpl; by apply rot90_1_shape.
Qed.

Lemma rot90_add h w m a b :
  has_shape h w m → 0 < h → 0 < w →
  rot90 (rot90 m a) b = rot90 m (a + b).
Proof.
  intros Hm Hh Hw. induction b as [|b IH].
  - rewrite Nat.add_0_r. done.
  - pose proof (rot90_shape h w m a Hm Hh Hw) as Ha.
    rewrite (rot90_S _ _ _ b Ha) by (destruct (Nat.even a); done).
    rewrite IH, Nat.add_succ_r. symmetry. by apply (rot90_S h w).
Qed.

Lemma rot90_back h w m k :
  has_shape h w m → 0 < h → 0 < w →
  rot90 (rot90 m k) (4 - k mod 4) = m.
Proof.
  intros Hm Hh Hw. rewrite (rot90_add h w) by done.
  rewrite rot90_mod.
  pose proof (Nat.mod_upper_bound k 4) as Hk.
  replace (k + (4 - k mod 4)) with ((k / 4 + 1) * 4)
    by (pose proof (Nat.Div0.div_mod k 4); lia).
  by rewrite Nat.Div0.mod_mul.
Qed.

Lemma rows_of_flatten h w m :
  has_shape h w m → rows_of h w (flatten m) = m.
Proof.
  intros [Hl Hall]. revert h Hl. unfold flatten.
  induction Hall as [|r m Hr Hall IH]; intros h Hl; simpl in *.
  - by subst h.
  - destruct h as [|h]; [done|]. simpl.
    rewrite take_app_length' by done. rewrite drop_app_length' by done.
    rewrite IH by lia. done.
Qed.

(** X4. The augmentation can be undone by the augmentation: on a
    triple of an [h] x [w] board, rotating the triple rotated by [k]
    by [4 - k mod 4] more (with the board dimensions swapped when [k] is
    odd) gives the triple back, and mirroring the mirrored triple gives
    the triple back. *)
Theorem augmentation_round_trip h w t k :
  0 < h → 0 < w →
  length (prob_of t) = h * w →
  Forall (has_shape h w) (state_of t) →
  (∀ t_k, variants h w t k !! 0 = Some t_k →
     variants (if Nat.even k then h else w) (if Nat.even k then w else h)
              t_k (4 - k mod 4) !! 0 = Some t)
  ∧ (∀ t_m, variants h w t 4 !! 1 = Some t_m →
       variants h w t_m 4 !! 1 = Some t).
Proof.
  intros Hh Hw Hp Hs. destruct t as [[s p] z].
  unfold prob_of, state_of in *. simpl in Hp, Hs.
  pose proof (rows_of_shape h w p Hp) as HB.
  split.
  - intros t_k [= <-]. simpl. do 3 f_equal.
    + unfold rotated_state, state_of. simpl. rewrite <-list_fmap_compose.
      rewrite <-(list_fmap_id s) at 2. apply Forall_fmap_ext.
      eapply Forall_impl; [exact Hs|]. intros c Hc. simpl.
      by apply (rot90_back h w).
    + unfold rotated_board, prob_of. simpl.
      pose proof (flipud_shape _ _ _ HB) as HUB.
      pose proof (flipud_shape _ _ _ (rot90_shape h w _ k HUB Hh Hw)) as HR.
      rewrite rows_of_flatten by exact HR.
      unfold flipud at 2 3. rewrite reverse_involutive.
      rewrite (rot90_back h w) by done.
      unfold flipud. rewrite reverse_involutive.
      by apply flatten_rows_of.
  - intros t_m [= <-]. simpl. do 3 f_equal.
    + unfold rotated_state, state_of. simpl.
      rewrite !list_fmap_id, <-list_fmap_compose.
      rewrite <-(list_fmap_id s) at 2. apply list_fmap_ext.
      intros i c _. simpl. apply fliplr_involutive.
    + unfold rotated_board, prob_of. simpl.
      rewrite !rot90_4. unfold flipud. rewrite !reverse_involutive.
      rewrite rows_of_flatten by (by apply fliplr_shape).
      rewrite ?rot90_4, ?reverse_involutive, fliplr_involutive.
      by apply flatten_rows_of.
Qed.
End AugmentInverse.

Lemma augmentation_round_trip_witness :
  let t : Augment.triple nat :=
    ([[[1; 2; 3]; [4; 5; 6]]], [1; 2; 3; 4; 5; 6], 7) in
  length (Augment.prob_of t) = 2 * 3
  ∧ Forall (Numpy.has_shape 2 3) (Augment.state_of t)
  ∧ (∀ t_k, Augment.variants 2 3 t 1 !! 0 = Some t_k →
       Augment.variants 3 2 t_k 3 !! 0 = Some t).
Proof.
  intros t.
  assert (length (Augment.prob_of t) = 2 * 3) as Hp by reflexivity.
  assert (Forall (Numpy.has_shape 2 3) (Augment.state_of t)) as Hs.
  { repeat constructor. }
  split; [exact Hp|]. split; [exact Hs|].
  assert (0 < 2) as H2 by lia. assert (0 < 3) as H3 by lia.
  exact (proj1 (augmentation_round_trip 2 3 t 1 H2 H3 Hp Hs)).
Defined.

(** ** The pipeline: collection *)

Section CollectFacts.
Import Pipeline.
Context `{Collaborators}.
Implicit Types (s self : TrainPipeline).

Ltac run_method :=
  unfold mbind, M_bind, bind, mret, M_ret, ret, raise, get, modify; simpl.

Lemma replicate_cons_app {X} k (c : X) l :
  replicate k c ++ c :: l = c :: replicate k c ++ l.
Proof. induction k; simpl; by f_equal. Qed.

(** One self-play game on the file at [data_index]. *)
Lemma self_play_once_run data_index s f :
  training_data s !! data_index = Some f →
  let game := start_self_play (env s) (policy_value_net s) (temp (conf s)) f in
  let s1 := set_episode_len (length game.1.2)
              (set_env game.2 (record_call (StartSelfPlay f) s)) in
  self_play_once data_index s
  = match Augment.get_equi_data (board_height (conf s)) (board_width (conf s))
                                game.1.2 with
    | Some play_data =>
        (Ok (), set_data_buffer
                  (Deque.extend (buffer_size (conf s)) (data_buffer s) play_data)
                  s1)
    | None => (Raise ValueError, s1)
    end.
Proof.
  intros Hf. unfold self_play_once. run_method. rewrite Hf.
  destruct (start_self_play _ _ _ _) as [[[warning winner] play_data] w].
  simpl. by destruct (Augment.get_equi_data _ _ _).
Qed.

Lemma data_index_in_range self i :
  training_data self ≠ [] →
  is_Some (training_data self !! (i mod length (training_data self))).
Proof.
  intros Hne. apply lookup_lt_is_Some_2, Nat.mod_upper_bound.
  by destruct (training_data self).
Qed.

(** The games of one collection, from a state with the same files. *)
Lemma self_play_games_run self data_index f (xs : list nat) : ∀ s,
  training_data self !! data_index = Some f →
  same_setup self s →
  let s' := (for_each xs (λ _, self_play_once data_index) s).2 in
  let r := (for_each xs (λ _, self_play_once data_index) s).1 in
  same_setup self s'
  ∧ (r = Ok () ∨ r = Raise ValueError)
  ∧ (well_shaped_games (board_height (conf self)) (board_width (conf self)) →
     r = Ok ())
  ∧ ∃ k, k ≤ length xs
      ∧ calls s' = replicate k (StartSelfPlay f) ++ calls s
      ∧ (r = Ok () → k = length xs).
Proof.
  intros s Hf. revert s. induction xs as [|x xs IH]; intros s [Hc Ht].
  - simpl. split_and!; [done|by left|done|]. exists 0. by split_and!.
  - simpl. unfold mbind, M_bind, bind.
    rewrite self_play_once_run with (f := f) by (by rewrite Ht).
    destruct (Augment.get_equi_data _ _ _) as [aug|] eqn:Haug.
    + match goal with
      | |- context [for_each xs _ ?s1] =>
          destruct (IH s1) as (Hsame & Hres & Hwell & k & Hk & Hcalls & Hok);
            [split; simpl; congruence|]
      end.
      split_and!; [done..|].
      exists (S k). split_and!; [simpl; lia| |intros Hr; simpl; f_equal; auto].
      rewrite Hcalls. simpl. apply replicate_cons_app.
    + split; [split; simpl; congruence|]. split; [by right|]. split.
      * intros Hwell. exfalso.
        specialize (Hwell (env s) (policy_value_net s) (temp (conf s)) f).
        rewrite Hc in Haug.
        apply (get_equi_data_variants (board_height (conf self))
                 (board_width (conf self))) in Hwell as [Hsome _].
        congruence.
      * exists 1. split_and!; [simpl; lia|done|done].
Qed.

(** X5. With at least one training file, all the games of one call of
    [collect_selfplay_data] start from the same file, the one at index
    [training_index mod] the number of files; the call plays [n_games]
    of them when it returns, and stops at the first game whose data
    cannot be augmented otherwise. *)
Theorem collect_plays_one_file self (n_games training_index : nat) :
  training_data self ≠ [] →
  ∃ f k,
    training_data self !! (training_index mod length (training_data self))
    = Some f
    ∧ k ≤ n_games
    ∧ calls_since self (collect_selfplay_data n_games training_index self).2
      = replicate k (StartSelfPlay f)
    ∧ ((collect_selfplay_data n_games training_index self).1 = Ok () →
       k = n_games).
Proof.
  intros Hne.
  destruct (data_index_in_range self training_index Hne) as [f Hf].
  exists f. unfold collect_selfplay_data. run_method.
  destruct (length (training_data self)) as [|L] eqn:HL.
  { by destruct (training_data self). }
  destruct (self_play_games_run self _ f (seq 0 n_games) self Hf)
    as (_ & _ & _ & k & Hk & Hcalls & Hok); [done|].
  rewrite length_seq in Hk, Hok. exists k. split_and!; [done..| |done].
  erewrite calls_since_app by exact Hcalls. apply reverse_replicate.
Qed.

(** X6. [collect_selfplay_data] raises [ZeroDivisionError] exactly when
    there is no training file, and then leaves the object as it was;
    it never raises an index or unbound-local error; and when every game
    comes with probability vectors of the size of the board, a call with
    at least one training file returns. *)
Theorem collect_errors self (n_games training_index : nat) :
  let r := (collect_selfplay_data n_games training_index self).1 in
  (r = Raise ZeroDivisionError ↔ training_data self = [])
  ∧ (training_data self = [] →
     (collect_selfplay_data n_games training_index self).2 = self)
  ∧ r ≠ Raise IndexError
  ∧ r ≠ Raise UnboundLocalError
  ∧ (well_shaped_games (board_height (conf self)) (board_width (conf self)) →
     training_data self ≠ [] → r = Ok ()).
Proof.
  simpl. unfold collect_selfplay_data. run_method.
  destruct (decide (training_data self = [])) as [Htd|Hne].
  { rewrite Htd. simpl. by split_and!. }
  destruct (data_index_in_range self training_index Hne) as [f Hf].
  destruct (length (training_data self)) as [|L] eqn:HL.
  { by destruct (training_data self). }
  destruct (self_play_games_run self _ f (seq 0 n_games) self Hf)
    as (_ & Hres & Hwell & _); [done|].
  split_and!.
  - split; [|done]. intros Hr. destruct Hres as [Hres|Hres]; congruence.
  - done.
  - destruct Hres as [Hres|Hres]; congruence.
  - destruct Hres as [Hres|Hres]; congruence.
  - intros Hw _. by apply Hwell.
Qed.

(** X7. A call that plays one game and returns has played it on the
    file at index [training_index mod len(training_data)], has set
    [episode_len] to the number of samples of that game, and has
    extended the buffer by the augmentation of these samples; on a
    buffer within its capacity the buffer has so grown by eight samples
    per sample of the game, up to the capacity. *)
Theorem collect_grows_buffer self (training_index : nat) self' :
  collect_selfplay_data 1 training_index self = (Ok (), self') →
  length (data_buffer self) ≤ buffer_size (conf self) →
  ∃ file_name play_data,
    training_data self !! (training_index mod length (training_data self))
    = Some file_name
    ∧ let game := start_self_play (env self) (policy_value_net self)
                                  (temp (conf self)) file_name in
      episode_len self' = Some (length game.1.2)
      ∧ env self' = game.2
      ∧ Augment.get_equi_data (board_height (conf self))
                              (board_width (conf self)) game.1.2
        = Some play_data
      ∧ data_buffer self'
        = Deque.extend (buffer_size (conf self)) (data_buffer self) play_data
      ∧ length (data_buffer self')
        = (length (data_buffer self) + 8 * length game.1.2)
          `min` buffer_size (conf self).
Proof.
  unfold collect_selfplay_data. run_method.
  destruct (decide (training_data self = [])) as [Htd|Hne].
  { by rewrite Htd. }
  destruct (data_index_in_range self training_index Hne) as [f Hf].
  destruct (length (training_data self)) as [|L] eqn:HL.
  { by destruct (training_data self). }
  simpl. unfold mbind, M_bind, bind.
  rewrite self_play_once_run with (f := f) by done.
  destruct (Augment.get_equi_data _ _ _) as [aug|] eqn:Haug; [|done].
  intros [= <-] Hlen. exists f, aug. split; [exact Hf|].
  split; [done|]. split; [done|]. split; [exact Haug|]. split; [done|].
  simpl. rewrite extend_lastn by done. rewrite length_drop, length_app.
  pose proof (get_equi_data_Some_length _ _ _ _ Haug) as Haug8.
  change (length aug) with (@length triple aug) in Haug8.
  change (Augment.triple Q) with triple in Haug8. lia.
Qed.
End CollectFacts.

Lemma collect_plays_one_file_witness :
  Pipeline.training_data (Pipeline.demo_init 1 2) ≠ []
  ∧ ∃ f k,
      Pipeline.training_data (Pipeline.demo_init 1 2) !! (3 mod 2) = Some f
      ∧ k ≤ 2
      ∧ Pipeline.calls_since (Pipeline.demo_init 1 2)
          (@Pipeline.collect_selfplay_data Pipeline.demo 2 3
             (Pipeline.demo_init 1 2)).2
        = replicate k (Pipeline.StartSelfPlay f).
Proof.
  assert (Pipeline.training_data (Pipeline.demo_init 1 2) ≠ []) as Hne
    by discriminate.
  split; [exact Hne|].
  destruct (@collect_plays_one_file Pipeline.demo (Pipeline.demo_init 1 2) 2 3 Hne)
    as (f & k & Hf & Hk & Hcalls & _).
  exists f, k. split; [exact Hf|]. split; [exact Hk | exact Hcalls].
Defined.

Lemma collect_grows_buffer_witness :
  let self := Pipeline.demo_init 1 2 in
  let self' := (@Pipeline.collect_selfplay_data Pipeline.demo 1 0 self).2 in
  @Pipeline.collect_selfplay_data Pipeline.demo 1 0 self = (Ok (), self')
  ∧ length (Pipeline.data_buffer self) ≤ 16
  ∧ ∃ file_name play_data,
      Pipeline.training_data self !! (0 mod 2) = Some file_name
      ∧ Pipeline.episode_len self' = Some 1
      ∧ Pipeline.data_buffer self' = Deque.extend 16 [] play_data
      ∧ length (Pipeline.data_buffer self') = (0 + 8 * 1) `min` 16.
Proof.
  intros self self'.
  assert (@Pipeline.collect_selfplay_data Pipeline.demo 1 0 self
          = (Ok (), self')) as Hrun by reflexivity.
  assert (length (Pipeline.data_buffer self) ≤ 16) as Hlen by (simpl; lia).
  split; [exact Hrun|]. split; [exact Hlen|].
  destruct (@collect_grows_buffer Pipeline.demo self 0 self' Hrun Hlen)
    as (f & aug & Hf & Hep & _ & _ & Hbuf & Hgrown).
  exists f, aug. split; [exact Hf|]. split; [exact Hep|].
  split; [exact Hbuf | exact Hgrown].
Defined.

(** ** The pipeline: what a policy update and a cycle can raise *)

Section Outcomes.
Import Pipeline.
Context `{Collaborators}.
Implicit Types (s self : TrainPipeline).

Ltac run_method :=
  unfold mbind, M_bind, bind, mret, M_ret, ret, raise, get, modify; simpl.

Lemma policy_update_failed_sample self :
  ¬ batch_size (conf self) ≤ length (data_buffer self) →
  policy_update self
  = (Raise ValueError,
     record_call (RandomSample (batch_size (conf self)))
                 (record_call EnterPolicyUpdate self)).
Proof.
  intros Hlen. unfold policy_update, sample_buffer. run_method.
  by rewrite decide_False.
Qed.

Lemma policy_update_no_epoch self :
  batch_size (conf self) ≤ length (data_buffer self) →
  epochs (conf self) = 0 →
  ∃ w, policy_update self
       = (Raise UnboundLocalError,
          set_env w (record_call (RandomSample (batch_size (conf self)))
                                 (record_call EnterPolicyUpdate self))).
Proof.
  intros Hlen HE. unfold policy_update, sample_buffer. run_method.
  rewrite decide_True by done.
  destruct (random_sample _ _ _) as [mb w]. simpl.
  destruct (policy_value _ _) as [old_probs old_v].
  rewrite HE. simpl. by exists w.
Qed.

(** X8. A policy update raises in two cases only: [ValueError] when the
    buffer holds fewer samples than a batch, and the unbound-local error
    when it holds a batch and no epoch is configured; and a policy
    update that raises leaves the multiplier, the network and the buffer
    as they were. *)
Theorem policy_update_failures self e self' :
  policy_update self = (Raise e, self') →
  same_model self self'
  ∧ (e = ValueError ∧ length (data_buffer self) < batch_size (conf self)
     ∨ e = UnboundLocalError
       ∧ batch_size (conf self) ≤ length (data_buffer self)
       ∧ epochs (conf self) = 0).
Proof.
  intros Hrun.
  destruct (decide (batch_size (conf self) ≤ length (data_buffer self)))
    as [Hlen|Hlen].
  - destruct (epochs (conf self)) as [|E] eqn:HE.
    + destruct (policy_update_no_epoch self Hlen HE) as (w & Heq).
      rewrite Heq in Hrun. injection Hrun as <- <-.
      split; [done|]. right. done.
    + destruct (policy_update_run self Hlen) as [_ H1].
      destruct H1 as (j & _ & Heq); [lia|]. by rewrite Heq in Hrun.
  - rewrite (policy_update_failed_sample self Hlen) in Hrun.
    injection Hrun as <- <-. split; [done|]. left. split; [done|lia].
Qed.

Lemma check_and_save_result i s :
  (check_and_save i s).1
  = match check_freq (conf s) with
    | 0 => Raise ZeroDivisionError
    | S _ => Ok ()
    end.
Proof.
  unfold check_and_save.
  set (save := if decide ((i + 1) mod 50 = 0)
               then modify (record_call SaveCurrentModel) else mret ()).
  assert (∃ s1, save s = (Ok (), s1) ∧ conf s1 = conf s) as (s1 & Hs1 & Hc).
  { subst save. destruct (decide _); by eexists. }
  unfold mbind at 1. unfold M_bind, bind. rewrite Hs1.
  unfold mbind at 1. unfold M_bind, bind, get. rewrite Hc.
  destruct (check_freq (conf s)) as [|f]; [done|].
  destruct (decide ((i + 1) mod S f = 0)); [|done].
  destruct (policy_evaluate_run 10 s1) as (w' & Hev); [lia|].
  unfold mbind, M_bind, bind. rewrite Hev.
  apply record_evaluation_returns.
Qed.

(** X9. After a collection that returned, a pass through the loop body
    raises the unbound-local error if the buffer now exceeds the batch
    size while no epoch is configured, else [ZeroDivisionError] if
    [check_freq] is 0, and returns otherwise: the sampling in it never
    fails. *)
Theorem cycle_outcome self i s1 :
  collect_selfplay_data 1 i self = (Ok (), s1) →
  (cycle i self).1
  = if decide (batch_size (conf self) < length (data_buffer s1)
               ∧ epochs (conf self) = 0)
    then Raise UnboundLocalError
    else match check_freq (conf self) with
         | 0 => Raise ZeroDivisionError
         | S _ => Ok ()
         end.
Proof.
  intros Hcollect. rewrite cycle_unfold, Hcollect.
  destruct (kept_collect 1 i self) as (Hconf & _).
  rewrite Hcollect in Hconf. simpl in Hconf. rewrite Hconf.
  destruct (decide (batch_size (conf self) < length (data_buffer s1)))
    as [Hlt|Hle].
  - assert (batch_size (conf s1) ≤ length (data_buffer s1)) as Hlen
      by (rewrite Hconf; lia).
    destruct (policy_update_run s1 Hlen) as [H0 H1]. rewrite Hconf in H0, H1.
    destruct (epochs (conf self)) as [|E] eqn:HE.
    + rewrite decide_True by done. specialize (H0 eq_refl).
      destruct (policy_update s1) as [[?|?] ?]; simpl in *; congruence.
    + destruct (decide _) as [[_ ?]|_]; [done|].
      destruct H1 as (j & _ & Heq); [lia|]. rewrite Heq.
      rewrite check_and_save_result. simpl. by rewrite Hconf.
  - destruct (decide (_ ∧ _)) as [[? _]|_]; [lia|].
    by rewrite check_and_save_result, Hconf.
Qed.
End Outcomes.

(** ** The pipeline: a whole run *)

Section RunFacts.
Import Pipeline.
Context `{Collaborators}.
Implicit Types (s self : TrainPipeline).

Ltac run_method :=
  unfold mbind, M_bind, bind, mret, M_ret, ret, raise, get, modify; simpl.

Ltac step_method :=
  repeat match goal with
    | |- PreOrder _ => exact _
    | |- Frame _ _ => exact _
    | |- BufferFrame _ => exact _
    | |- ∀ _, _ => intro
    | |- steps _ (mret _) => apply steps_ret
    | |- steps _ (raise _) => apply steps_raise
    | |- steps _ get => apply steps_get
    | |- steps _ (modify _) => apply steps_modify
    | |- steps _ (_ ≫= _) => apply steps_bind
    | |- steps _ (for_each _ _) => apply steps_for_each
    | |- steps _ (match ?x with _ => _ end) => destruct x
    end.

Global Instance same_setup_preorder : PreOrder same_setup.
Proof.
  split.
  - by intros s.
  - intros s1 s2 s3 [? ?] [? ?]. split; congruence.
Qed.

Global Instance same_setup_frame : Frame (λ _, True) same_setup.
Proof. by split. Qed.

Global Instance same_setup_buffer_frame : BufferFrame same_setup.
Proof. by intros s d. Qed.

Lemma same_setup_record_evaluation i r : steps same_setup (record_evaluation i r).
Proof. apply (steps_record_evaluation (λ _, True)); by step_method. Qed.

Lemma same_setup_cycle i : steps same_setup (cycle i).
Proof.
  apply steps_cycle; try exact _; [done|].
  intros r. apply same_setup_record_evaluation.
Qed.

Lemma same_setup_run : steps same_setup run.
Proof.
  apply steps_run; try exact _; [done|].
  intros i r. apply same_setup_record_evaluation.
Qed.

Lemma no_self_play_policy_update : steps (logged not_self_play) policy_update.
Proof.
  apply (steps_policy_update not_self_play); step_method; try done.
  by exists [].
Qed.

Lemma no_self_play_check_and_save i :
  steps (logged not_self_play) (check_and_save i).
Proof.
  apply (steps_check_and_save not_self_play); step_method; try done.
  apply (steps_record_evaluation not_self_play);
    step_method; try done; by exists [].
Qed.

Lemma omap_not_self_play new :
  Forall not_self_play new → omap self_play_file new = [].
Proof.
  induction 1 as [|c new Hc _ IH]; [done|]. simpl. by rewrite Hc.
Qed.

Lemma omap_total {A B} (F : A → option B) (d : B) (xs : list A) :
  (∀ x, is_Some (F x)) → omap F xs = (λ x, default d (F x)) <$> xs.
Proof.
  intros HF. induction xs as [|x xs IH]; [done|]. simpl.
  destruct (HF x) as [y ->]. simpl. f_equal. exact IH.
Qed.

Lemma collect_games_run s n i f :
  training_data s !! (i mod length (training_data s)) = Some f →
  well_shaped_games (board_height (conf s)) (board_width (conf s)) →
  (collect_selfplay_data n i s).1 = Ok ()
  ∧ same_setup s (collect_selfplay_data n i s).2
  ∧ calls (collect_selfplay_data n i s).2
    = replicate n (StartSelfPlay f) ++ calls s.
Proof.
  intros Hf Hw. unfold collect_selfplay_data. run_method.
  destruct (length (training_data s)) as [|L] eqn:HL.
  { by destruct (training_data s). }
  destruct (self_play_games_run s _ f (seq 0 n) s Hf)
    as (Hsame & _ & Hwell & k & _ & Hcalls & Hok); [done|].
  specialize (Hwell Hw). specialize (Hok Hwell).
  rewrite length_seq in Hok. by subst k.
Qed.

Lemma collect_one_run s i f :
  training_data s !! (i mod length (training_data s)) = Some f →
  well_shaped_games (board_height (conf s)) (board_width (conf s)) →
  ∃ s1, collect_selfplay_data 1 i s = (Ok (), s1)
    ∧ same_setup s s1
    ∧ calls s1 = StartSelfPlay f :: calls s.
Proof.
  intros Hf Hw.
  destruct (collect_games_run s 1 i f Hf Hw) as (Hok & Hsame & Hcalls).
  destruct (collect_selfplay_data 1 i s) as [r s1]. simpl in *. subst r.
  by exists s1.
Qed.

Lemma cycle_run_ok s i :
  training_data s ≠ [] → check_freq (conf s) ≠ 0 → 1 ≤ epochs (conf s) →
  well_shaped_games (board_height (conf s)) (board_width (conf s)) →
  ∃ f new,
    training_data s !! (i mod length (training_data s)) = Some f
    ∧ (cycle i s).1 = Ok ()
    ∧ calls (cycle i s).2 = new ++ calls s
    ∧ omap self_play_file (reverse new) = [f].
Proof.
  intros Hne Hcf HE Hw.
  destruct (data_index_in_range s i Hne) as [f Hf]. exists f.
  destruct (collect_one_run s i f Hf Hw) as (s1 & Hcollect & [Hconf _] & Hc1).
  assert (∀ s2 new1, conf s2 = conf s → calls s2 = new1 ++ calls s1 →
            Forall not_self_play new1 →
            ∃ new, (check_and_save i s2).1 = Ok ()
              ∧ calls (check_and_save i s2).2 = new ++ calls s
              ∧ omap self_play_file (reverse new) = [f]) as Hrest.
  { intros s2 new1 Hconf2 Hc2 HP1.
    destruct (no_self_play_check_and_save i s2) as (new2 & Hc3 & HP2).
    exists (new2 ++ new1 ++ [StartSelfPlay f]). split_and!.
    - rewrite check_and_save_result, Hconf2.
      by destruct (check_freq (conf s)).
    - rewrite Hc3, Hc2, Hc1. by rewrite <- !(assoc_L (++)).
    - rewrite !reverse_app, !omap_app.
      rewrite (omap_not_self_play (reverse new1)),
        (omap_not_self_play (reverse new2)) by by apply Forall_reverse.
      done. }
  rewrite cycle_unfold, Hcollect.
  destruct (decide _) as [Hlt|Hle].
  - destruct (policy_update_run s1) as [_ H1]; [lia|].
    destruct H1 as (j & _ & Heq); [by rewrite Hconf|].
    destruct (no_self_play_policy_update s1) as (new1 & Hc2 & HP1).
    rewrite Heq in Hc2 |- *.
    destruct (Hrest (policy_updated s1 j) new1) as (new & ? & ? & ?);
      [done..|].
    by exists new.
  - destruct (Hrest s1 []) as (new & ? & ? & ?); [done..|].
    by exists new.
Qed.

Lemma cycles_run self xs : ∀ s,
  training_data self ≠ [] → check_freq (conf self) ≠ 0 →
  1 ≤ epochs (conf self) →
  well_shaped_games (board_height (conf self)) (board_width (conf self)) →
  same_setup self s →
  (for_each xs cycle s).1 = Ok ()
  ∧ ∃ new,
      calls (for_each xs cycle s).2 = new ++ calls s
      ∧ omap self_play_file (reverse new)
        = omap (λ i, training_data self !! (i mod length (training_data self)))
               xs.
Proof.
  intros s Hne Hcf HE Hw. revert s.
  induction xs as [|i xs IH]; intros s [Hconf Htd].
  - simpl. split; [done|]. by exists [].
  - destruct (cycle_run_ok s i) as (f & new1 & Hf & Hok & Hc1 & Hfiles1);
      [by rewrite ?Hconf, ?Htd..|].
    pose proof (same_setup_cycle i s) as Hsame.
    simpl. unfold mbind, M_bind, bind.
    destruct (cycle i s) as [r s1]. simpl in *. subst r.
    destruct (IH s1) as (Hok2 & new2 & Hc2 & Hfiles2).
    { by etrans; [split|exact Hsame]. }
    split; [done|]. exists (new2 ++ new1). split.
    + by rewrite Hc2, Hc1, (assoc_L (++)).
    + rewrite reverse_app, omap_app, Hfiles1, Hfiles2.
      rewrite Htd in Hf. by rewrite Hf.
Qed.

(** X10. With at least one training file, a nonzero [check_freq], at
    least one epoch per update and games whose probability vectors have
    the size of the board, [run] returns; and it has then played one
    self-play game per cycle, cycle [i] on the file at index
    [i mod len(training_data)], so the files are gone through in order,
    round after round. *)
Theorem run_returns self :
  training_data self ≠ [] → check_freq (conf self) ≠ 0 →
  1 ≤ epochs (conf self) →
  well_shaped_games (board_height (conf self)) (board_width (conf self)) →
  (run self).1 = Ok ()
  ∧ length (files_played self (run self).2) = game_batch_num (conf self)
  ∧ ∀ i, i < game_batch_num (conf self) →
      files_played self (run self).2 !! i
      = training_data self !! (i mod length (training_data self)).
Proof.
  intros Hne Hcf HE Hw.
  destruct (cycles_run self (seq 0 (game_batch_num (conf self))) self)
    as (Hok & new & Hcalls & Hfiles); [done..|].
  unfold run. run_method. split; [done|].
  unfold files_played. erewrite calls_since_app by exact Hcalls.
  rewrite Hfiles.
  rewrite (omap_total _ "") by (intros i; by apply data_index_in_range).
  split; [by rewrite length_fmap, length_seq|].
  intros i Hi. rewrite list_lookup_fmap, lookup_seq_lt by done. simpl.
  by destruct (data_index_in_range self i Hne) as [f ->].
Qed.

(** X11. Without a training file [run] makes no call and changes
    nothing: it raises [ZeroDivisionError] in the first cycle, or
    returns at once when no cycle is asked for. *)
Theorem run_without_files self :
  training_data self = [] →
  run self
  = (if decide (game_batch_num (conf self) = 0) then Ok ()
     else Raise ZeroDivisionError, self).
Proof.
  intros Htd. unfold run. run_method.
  destruct (game_batch_num (conf self)) as [|n]; [done|].
  rewrite decide_False by done. simpl.
  unfold mbind, M_bind, bind. rewrite cycle_unfold.
  unfold collect_selfplay_data. run_method. by rewrite Htd.
Qed.
End RunFacts.

(** ** The pipeline: evaluation and the baseline *)

Section EvaluationFacts.
Import Pipeline.
Context `{Collaborators}.
Implicit Types (s self : TrainPipeline).

Ltac run_method :=
  unfold mbind, M_bind, bind, mret, M_ret, ret, raise, get, modify; simpl.

Lemma tally_le x ws : tally x ws ≤ length ws.
Proof. apply length_filter. Qed.

Lemma tally_pair_le ws : tally 1 ws + tally (-1) ws ≤ length ws.
Proof.
  unfold tally. induction ws as [|y ws IH]; [done|].
  rewrite !filter_cons. repeat case_decide; simpl; lia.
Qed.

Lemma tally_all x ws : tally x ws = length ws ↔ ws = replicate (length ws) x.
Proof.
  unfold tally. induction ws as [|y ws IH]; [done|].
  rewrite filter_cons. case_decide as Hy; simpl.
  - subst y. split.
    + intros [= Hlen]. f_equal. by apply IH.
    + intros [= Hws]. f_equal. by apply IH.
  - pose proof (tally_le x ws) as Hle. unfold tally in Hle. split.
    + lia.
    + intros [= ? _]. done.
Qed.

Lemma inject_nat_le (a b : nat) :
  a ≤ b → (inject_Z (Z.of_nat a) <= inject_Z (Z.of_nat b))%Q.
Proof. intros. rewrite <- Zle_Qle. lia. Qed.

Lemma win_ratio_of_bounds (cnt : gmap Z nat) n :
  1 ≤ n → cnt !!! 1%Z + cnt !!! (-1)%Z ≤ n →
  (0 <= win_ratio_of cnt n)%Q
  ∧ (win_ratio_of cnt n <= 1)%Q
  ∧ (cnt !!! 1%Z = n → win_ratio_of cnt n == 1)%Q
  ∧ (n < 25 → (0.98 <= win_ratio_of cnt n)%Q → cnt !!! 1%Z = n).
Proof.
  intros Hn Hab. unfold win_ratio_of.
  pose proof (inject_nat_le 0 (cnt !!! 1%Z) ltac:(lia)) as HA.
  pose proof (inject_nat_le 0 (cnt !!! (-1)%Z) ltac:(lia)) as HB.
  pose proof (inject_nat_le _ _ Hab) as HAB.
  pose proof (inject_nat_le 1 n Hn) as HN.
  rewrite Nat2Z.inj_add, inject_Z_plus in HAB.
  change (inject_Z (Z.of_nat 0)) with 0%Q in HA, HB.
  change (inject_Z (Z.of_nat 1)) with 1%Q in HN.
  assert (∀ x : Q, x / inject_Z (Z.of_nat n) * inject_Z (Z.of_nat n) == x)%Q
    as Hdiv by (intros x; field; lra).
  split_and!.
  - apply Qle_shift_div_l; lra.
  - apply Qle_shift_div_r; lra.
  - intros Ha. rewrite Ha in *.
    assert (inject_Z (Z.of_nat (cnt !!! (-1)%Z)) == 0)%Q as -> by lra.
    field. lra.
  - intros Hn25 Hr. destruct (decide (cnt !!! 1%Z = n)) as [|Hne]; [done|].
    exfalso.
    pose proof (inject_nat_le (S (cnt !!! 1%Z)) n ltac:(lia)) as HA1.
    pose proof (inject_nat_le n 24 ltac:(lia)) as HN24.
    rewrite Nat2Z.inj_succ, <- Z.add_1_r, inject_Z_plus in HA1.
    change (inject_Z 1) with 1%Q in HA1.
    change (inject_Z (Z.of_nat 24)) with 24%Q in HN24.
    apply (Qmult_le_compat_r _ _ (inject_Z (Z.of_nat n))) in Hr; [|lra].
    rewrite Hdiv in Hr. lra.
Qed.

(** X12. The win ratio of an evaluation of at least one game lies
    between 0 and 1; it is 1 when the learner won every game; and with
    fewer than 25 games it reaches 0.98 only then. *)
Theorem win_ratio_bounds self (n_games : nat) :
  1 ≤ n_games →
  let ws := winners (env self) (policy_value_net self)
                    (pure_mcts_playout_num self)
                    ((λ i, i mod 2) <$> seq 0 n_games) in
  ∃ win_ratio,
    (policy_evaluate n_games self).1 = Ok win_ratio
    ∧ (0 <= win_ratio)%Q ∧ (win_ratio <= 1)%Q
    ∧ (ws = replicate n_games 1%Z → win_ratio == 1)%Q
    ∧ (n_games < 25 → (0.98 <= win_ratio)%Q → ws = replicate n_games 1%Z).
Proof.
  intros Hn ws. destruct (policy_evaluate_run n_games self Hn) as (w' & ->).
  eexists. split; [done|]. fold ws.
  assert (length ws = n_games) as Hlen
    by (unfold ws; by rewrite winners_length, length_fmap, length_seq).
  destruct (win_ratio_of_bounds (foldl count_win ∅ ws) n_games Hn)
    as (H0 & H1 & Hall & H98).
  { rewrite !tally_counted, !lookup_total_empty. simpl.
    rewrite <- Hlen. apply tally_pair_le. }
  rewrite tally_counted, lookup_total_empty in Hall, H98. simpl in Hall, H98.
  split_and!; [done|done| |].
  - intros Hws. apply Hall. rewrite <- Hlen. apply tally_all.
    by rewrite Hlen.
  - intros Hn25 Hr. specialize (H98 Hn25 Hr). rewrite <- Hlen.
    apply tally_all. by rewrite Hlen.
Qed.

Lemma baseline_steps_same s s' :
  pure_mcts_playout_num s' = pure_mcts_playout_num s → baseline_steps s s'.
Proof.
  intros Hp. unfold baseline_steps. rewrite Hp.
  split_and!; [lia| |lia]. rewrite Z.sub_diag. apply Z.divide_0_r.
Qed.

Global Instance baseline_steps_preorder : PreOrder baseline_steps.
Proof.
  split.
  - intros s. by apply baseline_steps_same.
  - intros s1 s2 s3 (Hle1 & Hdiv1 & Hmax1) (Hle2 & Hdiv2 & Hmax2).
    split_and!; [lia| |lia].
    replace (pure_mcts_playout_num s3 - pure_mcts_playout_num s1)%Z
      with ((pure_mcts_playout_num s3 - pure_mcts_playout_num s2)
            + (pure_mcts_playout_num s2 - pure_mcts_playout_num s1))%Z by lia.
    by apply Z.divide_add_r.
Qed.

Global Instance baseline_steps_frame : Frame (λ _, True) baseline_steps.
Proof. split; intros; by apply baseline_steps_same. Qed.

Global Instance baseline_steps_buffer_frame : BufferFrame baseline_steps.
Proof. intros s d. by apply baseline_steps_same. Qed.

Lemma baseline_steps_record_evaluation i r :
  steps baseline_steps (record_evaluation i r).
Proof.
  intros s. pose proof (record_evaluation_cases i r s) as Hcases.
  simpl in Hcases. unfold baseline_steps.
  destruct Hcases as [[Hp _]|(Hlt & _ & _ & -> & _)].
  - by apply baseline_steps_same.
  - split_and!; [lia| |lia].
    replace (pure_mcts_playout_num s + 1000 - pure_mcts_playout_num s)%Z
      with 1000%Z by lia.
    done.
Qed.

(** X13. Over a cycle and over a whole run, whether they return or
    raise, the playout number of the baseline never goes down, moves
    by multiples of 1000 only, and does not pass 8999 unless it was
    beyond that from the start. *)
Theorem baseline_moves_by_thousands self :
  baseline_steps self (run self).2
  ∧ ∀ i, baseline_steps self (cycle i self).2.
Proof.
  assert (∀ s kl,
    baseline_steps s
      (set_lr_multiplier
         (adapt_lr_multiplier (kl_targ (conf s)) kl (lr_multiplier s)) s))
    as Hlr by (intros; by apply baseline_steps_same).
  split.
  - apply (steps_run baseline_steps Hlr baseline_steps_record_evaluation self).
  - intros i.
    apply (steps_cycle baseline_steps i Hlr
             (baseline_steps_record_evaluation i) self).
Qed.

(** X14. The saving and evaluation step changes the playout number of
    the baseline only in a cycle that is due for an evaluation, from a
    baseline below 8000, and only when the learner won every one of the
    ten evaluation games: it then adds 1000 and resets the best win
    ratio to 0.0. *)
Theorem escalation_needs_every_win i s :
  pure_mcts_playout_num (check_and_save i s).2 ≠ pure_mcts_playout_num s →
  winners (env s) (policy_value_net s) (pure_mcts_playout_num s)
          ((λ i, i mod 2) <$> seq 0 10)
  = replicate 10 1%Z
  ∧ (i + 1) mod check_freq (conf s) = 0
  ∧ (pure_mcts_playout_num s < 8000)%Z
  ∧ pure_mcts_playout_num (check_and_save i s).2
    = (pure_mcts_playout_num s + 1000)%Z
  ∧ best_win_ratio (check_and_save i s).2 = 0.0%Q.
Proof.
  remember (check_and_save i s).2 as final eqn:Hfinal. intros Hchg.
  unfold check_and_save in Hfinal.
  set (save := if decide ((i + 1) mod 50 = 0)
               then modify (record_call SaveCurrentModel) else mret ())
    in Hfinal.
  assert (∃ s1, save s = (Ok (), s1) ∧ conf s1 = conf s ∧ env s1 = env s
            ∧ policy_value_net s1 = policy_value_net s
            ∧ pure_mcts_playout_num s1 = pure_mcts_playout_num s)
    as (s1 & Hs1 & Hc & He & Hn & Hp).
  { subst save. destruct (decide _); eexists; by split_and!. }
  unfold mbind, M_bind, bind, get in Hfinal. rewrite Hs1, Hc in Hfinal.
  destruct (check_freq (conf s)) as [|f];
    [simpl in Hfinal; congruence|].
  destruct (decide ((i + 1) mod S f = 0)) as [Hmod|];
    [|simpl in Hfinal; congruence].
  destruct (policy_evaluate_run 10 s1) as (w' & Hev); [lia|].
  rewrite Hev, He, Hn, Hp in Hfinal. clear Hev.
  match type of Hfinal with
  | context [record_evaluation i ?r ?s2] =>
      set (ratio := r) in *; set (evaluated := s2) in *
  end.
  pose proof (record_evaluation_cases i ratio evaluated) as Hcases.
  simpl in Hcases. rewrite <- Hfinal in Hcases.
  destruct Hcases as [[Hsame _]|(Hlt & H98 & _ & Hp' & Hb')]; [done|].
  split_and!; [|done..].
  set (ws := winners _ _ _ _) in *.
  assert (length ws = 10) as Hlen
    by (unfold ws; by rewrite winners_length, length_fmap, length_seq).
  destruct (win_ratio_of_bounds (foldl count_win ∅ ws) 10)
    as (_ & _ & _ & Hall); [lia| |].
  { rewrite !tally_counted, !lookup_total_empty. simpl.
    rewrite <- Hlen. apply tally_pair_le. }
  rewrite tally_counted, lookup_total_empty in Hall. simpl in Hall.
  rewrite <- Hlen. apply tally_all. rewrite Hlen. apply Hall; [lia|done].
Qed.
End EvaluationFacts.

(** ** The pipeline: the KL divergence of an unchanged policy *)

Section DivergenceFacts.
Import Pipeline.
Context `{Collaborators}.

Lemma np_sum_zero (row : list Q) :
  Forall (λ x, x == 0)%Q row → (np_sum row == 0)%Q.
Proof.
  induction 1 as [|x row Hx _ IH]; [done|].
  simpl. rewrite Hx, IH. ring.
Qed.

Lemma kl_terms_zero (row : list Q) :
  Forall (λ x, x == 0)%Q
    (zip_with (λ p q, p * (np_log (p + 1e-10) - np_log (q + 1e-10)))%Q
              row row).
Proof.
  induction row as [|p row IH]; simpl; constructor; [ring|done].
Qed.

Lemma kl_rows_zero (probs : list (list Q)) :
  Forall (λ x, x == 0)%Q
    (np_sum <$>
       zip_with
         (zip_with (λ p q, p * (np_log (p + 1e-10) - np_log (q + 1e-10)))%Q)
         probs probs).
Proof.
  induction probs as [|row probs IH]; simpl; constructor; [|done].
  apply np_sum_zero, kl_terms_zero.
Qed.

(** X15. When a training step leaves the action probabilities of a
    non-empty batch as they were, the measured KL divergence is 0;
    with a positive target the multiplier is then multiplied by 1.5 if
    it is below 20 and kept otherwise. *)
Theorem unchanged_policy_raises_multiplier (probs : list (list Q))
    (kl_targ m : Q) :
  probs ≠ [] →
  (kl_divergence probs probs == 0)%Q
  ∧ ((0 < kl_targ)%Q →
     adapt_lr_multiplier kl_targ (kl_divergence probs probs) m
     = if Qlt_bool m 20 then (m * 1.5)%Q else m).
Proof.
  intros _.
  assert (kl_divergence probs probs == 0)%Q as Hkl.
  { unfold kl_divergence, np_mean. rewrite np_sum_zero by apply kl_rows_zero.
    unfold Qdiv. ring. }
  split; [done|]. intros Htarg. unfold adapt_lr_multiplier.
  assert (Qlt_bool (kl_targ * 2) (kl_divergence probs probs) = false) as ->.
  { apply Qlt_bool_false. rewrite Hkl. lra. }
  assert (Qlt_bool (kl_divergence probs probs) (kl_targ / 2) = true) as ->.
  { apply Qlt_bool_iff. rewrite Hkl, Qhalf. lra. }
  done.
Qed.
End DivergenceFacts.

(** ** Loading the training files *)

Section LoaderFacts.
Import Loader.

Lemma substring_whole (s : string) : String.substring 0 (String.length s) s = s.
Proof. induction s as [|c s IH]; [done|]. simpl. by rewrite IH. Qed.

Lemma append_cons c (s1 s2 : string) :
  String c s1 +:+ s2 = String c (s1 +:+ s2).
Proof. reflexivity. Qed.

Lemma append_empty (s : string) : "" +:+ s = s.
Proof. reflexivity. Qed.

Lemma substring_split (s : string) : ∀ k,
  k ≤ String.length s →
  s = String.substring 0 k s +:+ String.substring k (String.length s - k) s.
Proof.
  induction s as [|c s IH]; intros [|k] Hk; simpl in *; try lia.
  - done.
  - by rewrite append_empty, substring_whole.
  - rewrite append_cons. f_equal. apply IH. lia.
Qed.

Lemma substring_after (stem suffix : string) :
  String.substring (String.length stem) (String.length suffix) (stem +:+ suffix)
  = suffix.
Proof.
  induction stem as [|c stem IH].
  - rewrite append_empty. apply substring_whole.
  - rewrite append_cons. simpl. exact IH.
Qed.

Lemma length_append (s1 s2 : string) :
  String.length (s1 +:+ s2) = String.length s1 + String.length s2.
Proof.
  induction s1 as [|c s1 IH]; [done|].
  rewrite append_cons. simpl. by rewrite IH.
Qed.

Lemma endswith_spec (s suffix : string) :
  endswith s suffix = true ↔ ∃ stem, s = stem +:+ suffix.
Proof.
  unfold endswith. rewrite andb_true_iff, Nat.leb_le, String.eqb_eq. split.
  - intros [Hle Hsub].
    exists (String.substring 0 (String.length s - String.length suffix) s).
    pose proof (substring_split s (String.length s - String.length suffix))
      as Hsplit.
    replace (String.length s - (String.length s - String.length suffix))
      with (String.length suffix) in Hsplit by lia.
    rewrite Hsub in Hsplit. apply Hsplit. lia.
  - intros [stem ->]. rewrite length_append. split; [lia|].
    replace (String.length stem + String.length suffix - String.length suffix)
      with (String.length stem) by lia.
    apply substring_after.
Qed.

(** X16. Whatever the order the shuffle leaves, the training files are
    entries of the directory listing, each as often as the listing has
    it at most; a name is among them exactly when it is listed, ends in
    [.sgf] and is a regular file. *)
Theorem load_training_data_spec (file_list : list string)
    (isfile : string → bool) (shuffle : list string → list string) :
  (∀ l, shuffle l ≡ₚ l) →
  let training_data := _load_training_data file_list isfile shuffle in
  training_data ⊆+ file_list
  ∧ ∀ item, item ∈ training_data
      ↔ item ∈ file_list ∧ (∃ stem, item = stem +:+ ".sgf")
        ∧ isfile item = true.
Proof.
  intros Hshuffle training_data. unfold training_data, _load_training_data.
  split.
  - rewrite Hshuffle. apply sublist_submseteq, sublist_filter.
  - intros item. rewrite Hshuffle, list_elem_of_filter.
    rewrite andb_True, !Is_true_true, endswith_spec. tauto.
Qed.
End LoaderFacts.

(** ** The further properties on the small instance *)

Lemma policy_update_failures_witness :
  let self := demo_init 1 2 in
  let self' := (@policy_update demo self).2 in
  @policy_update demo self = (Raise ValueError, self')
  ∧ same_model self self'
  ∧ (ValueError = ValueError
     ∧ length (data_buffer self) < batch_size (conf self)
     ∨ ValueError = UnboundLocalError
       ∧ batch_size (conf self) ≤ length (data_buffer self)
       ∧ epochs (conf self) = 0).
Proof.
  intros self self'.
  assert (@policy_update demo self = (Raise ValueError, self')) as Hrun
    by reflexivity.
  split; [exact Hrun|].
  exact (@policy_update_failures demo self ValueError self' Hrun).
Defined.

Lemma cycle_outcome_witness :
  let self := demo_init 1 2 in
  let s1 := (@collect_selfplay_data demo 1 0 self).2 in
  @collect_selfplay_data demo 1 0 self = (Ok (), s1)
  ∧ (@cycle demo 0 self).1
    = if decide (batch_size (conf self) < length (data_buffer s1)
                 ∧ epochs (conf self) = 0)
      then Raise UnboundLocalError
      else match check_freq (conf self) with
           | 0 => Raise ZeroDivisionError
           | S _ => Ok ()
           end.
Proof.
  intros self s1.
  assert (@collect_selfplay_data demo 1 0 self = (Ok (), s1)) as Hrun
    by reflexivity.
  split; [exact Hrun|].
  exact (@cycle_outcome demo self 0 s1 Hrun).
Defined.

Lemma run_returns_witness :
  let self := demo_init 1 2 in
  training_data self ≠ []
  ∧ check_freq (conf self) ≠ 0
  ∧ 1 ≤ epochs (conf self)
  ∧ @well_shaped_games demo (board_height (conf self)) (board_width (conf self))
  ∧ (@run demo self).1 = Ok ()
  ∧ length (files_played self (@run demo self).2) = 2
  ∧ ∀ i, i < 2 →
      files_played self (@run demo self).2 !! i
      = training_data self !! (i mod length (training_data self)).
Proof.
  intros self.
  assert (training_data self ≠ []) as Hne by discriminate.
  assert (check_freq (conf self) ≠ 0) as Hcf by discriminate.
  assert (1 ≤ epochs (conf self)) as HE by (simpl; lia).
  assert (@well_shaped_games demo (board_height (conf self))
                                  (board_width (conf self))) as Hw
    by (intros w n t f; simpl; repeat constructor).
  split; [exact Hne|]. split; [exact Hcf|]. split; [exact HE|].
  split; [exact Hw|].
  exact (@run_returns demo self Hne Hcf HE Hw).
Defined.

Lemma run_without_files_witness :
  let self := @init demo (demo_conf 1 2) [] 0 0 in
  training_data self = []
  ∧ @run demo self = (Raise ZeroDivisionError, self).
Proof.
  intros self.
  assert (training_data self = []) as Htd by reflexivity.
  split; [exact Htd|].
  exact (@run_without_files demo self Htd).
Defined.

Lemma win_ratio_bounds_witness :
  1 ≤ 10
  ∧ ∃ win_ratio,
      (@policy_evaluate demo 10 (demo_init 1 2)).1 = Ok win_ratio
      ∧ (0 <= win_ratio)%Q ∧ (win_ratio <= 1)%Q.
Proof.
  assert (1 ≤ 10) as Hn by lia.
  split; [exact Hn|].
  destruct (@win_ratio_bounds demo (demo_init 1 2) 10 Hn)
    as (r & Hr & H0 & H1 & _).
  exists r. split; [exact Hr|]. split; [exact H0 | exact H1].
Defined.

Lemma escalation_needs_every_win_witness :
  let s := (@cycle demo 0 (demo_init 1 2)).2 in
  pure_mcts_playout_num (@check_and_save demo 1 s).2 ≠ pure_mcts_playout_num s
  ∧ @winners demo (env s) (policy_value_net s) (pure_mcts_playout_num s)
             ((λ i, i mod 2) <$> seq 0 10)
    = replicate 10 1%Z
  ∧ pure_mcts_playout_num (@check_and_save demo 1 s).2 = 2000%Z.
Proof.
  intros s.
  assert (pure_mcts_playout_num (@check_and_save demo 1 s).2
          ≠ pure_mcts_playout_num s) as Hchg
    by (vm_compute; discriminate).
  split; [exact Hchg|].
  destruct (@escalation_needs_every_win demo 1 s Hchg)
    as (Hws & _ & _ & Hp & _).
  split; [exact Hws|]. rewrite Hp. reflexivity.
Defined.

Lemma unchanged_policy_raises_multiplier_witness :
  [[1; 0]]%Q ≠ []
  ∧ (0 < 0.02)%Q
  ∧ @adapt_lr_multiplier 0.02 (@kl_divergence demo [[1; 0]]%Q [[1; 0]]%Q) 1
    = (1 * 1.5)%Q.
Proof.
  assert ([[1; 0]]%Q ≠ []) as Hne by discriminate.
  assert (0 < 0.02)%Q as Htarg by reflexivity.
  split; [exact Hne|]. split; [exact Htarg|].
  exact (proj2 (@unchanged_policy_raises_multiplier demo [[1; 0]]%Q 0.02 1 Hne)
               Htarg).
Defined.

Lemma load_training_data_spec_witness :
  let file_list := ["a.sgf"; "notes.txt"; "b.sgf"; "old.sgf"] in
  let isfile := λ item, negb (String.eqb item "old.sgf") in
  (∀ l : list string, reverse l ≡ₚ l)
  ∧ Loader._load_training_data file_list isfile reverse ⊆+ file_list
  ∧ ∀ item, item ∈ Loader._load_training_data file_list isfile reverse
      ↔ item ∈ file_list ∧ (∃ stem, item = stem +:+ ".sgf")
        ∧ isfile item = true.
Proof.
  intros file_list isfile.
  assert (∀ l : list string, reverse l ≡ₚ l) as Hshuffle
    by (intros l; apply reverse_Permutation).
  split; [exact Hshuffle|].
  exact (load_training_data_spec file_list isfile reverse Hshuffle).
Defined.
